(** * gomailer: the hook pipeline (hook.go) and the transports' send hook

    A shallow embedding of [Hook.Bind], [Hook.Unbind], [Hook.UnbindAll],
    [Hook.Length], [Hook.Trigger], [Event.Next] and of the [Send] methods of
    the two transports, together with the properties of the pipeline.

    Modelling choices.
    - A handler function [func(T) error] is a finite program over the
      operations a handler can perform on the event it receives: call
      [e.Next()], read and write the state it has access to (the event's own
      fields and whatever it captured, e.g. a shared log), and return.
      Handlers do not bind or unbind while they run.
    - The only [func() error] values ever stored in [Event.next] are [nil] and
      the closure literal of [Hook.Trigger]; the closure is represented by the
      variables it captures ([old], [handlers], [i]).
    - Calling a nil function and indexing out of range are Go panics; they
      are a result of their own, apart from running into the evaluation
      bound.
    - Handlers are values: a caller that writes the fields of a [Handler]
      after it was bound is not modelled.
    - The registry lock is not modelled: every operation is atomic here.
    - Go's [int] priority is only compared, never computed with: it is a [Z]. *)

From Stdlib Require Import List String Ascii ZArith Lia Bool Arith PeanoNat.
From Stdlib Require Import Sorting.Sorted Sorting.Permutation.
Import ListNotations.

Local Open Scope string_scope.
Local Open Scope list_scope.

(** ** Pseudorandom identifiers *)

(** The process-wide source of [math/rand]: the sequence of raw draws still to
    come.  Nothing is assumed about the sequence. *)
Definition Rand : Type := nat -> nat.

(** [mathRand.Intn(n)]: the next draw reduced to [0, n).  (The library panics
    for [n <= 0]; the only caller passes the length of a non-empty alphabet.) *)
Definition Intn (r : Rand) (n : nat) : nat * Rand :=
  (r 0 mod n, fun k => r (S k)).

Definition defaultRandomAlphabet : string :=
  "ABCDEFGHIJKLMNOPQRSTUVWXYZabcdefghijklmnopqrstuvwxyz0123456789".

(** [pseudorandomStringWithAlphabet]: [b[i] = alphabet[Intn(max)]] for each
    [i] in increasing order. *)
Fixpoint pseudorandomStringWithAlphabet
    (length : nat) (alphabet : string) (r : Rand) : string * Rand :=
  match length with
  | 0 => (EmptyString, r)
  | S length' =>
      let (idx, r1) := Intn r (String.length alphabet) in
      let c := match String.get idx alphabet with
               | Some c => c
               | None => Ascii.zero
               end in
      let (rest, r2) := pseudorandomStringWithAlphabet length' alphabet r1 in
      (String c rest, r2)
  end.

Definition pseudorandomString (length : nat) (r : Rand) : string * Rand :=
  pseudorandomStringWithAlphabet length defaultRandomAlphabet r.

Definition generateHookId (r : Rand) : string * Rand :=
  pseudorandomString 20 r.

(** ** Errors *)

(** A Go [error] value: [None] is [nil]. *)
Definition error : Type := option string.

Section Pipeline.

(** Everything a handler can read or write besides the continuation pointer:
    the fields of the concrete event type and the state the handler's closure
    captured. *)
Variable W : Type.

(** ** Handler functions *)

(** The body of a [func(T) error], applied to the event of the running
    trigger. *)
Inductive HandlerFunc : Type :=
| Ret (e : error)                        (* return e *)
| CallNext (k : error -> HandlerFunc)    (* err := e.Next(); k err *)
| Get (k : W -> HandlerFunc)             (* read the accessible state *)
| Put (w : W) (k : HandlerFunc).         (* write the accessible state *)

(** ** Handler and Hook *)

(** [Func] is [None] for a nil function. *)
Record Handler : Type := mkHandler {
  Func : option HandlerFunc;
  Id : string;
  Priority : Z
}.

Record Hook : Type := mkHook {
  handlers : list Handler
}.

Definition setId (id : string) (x : Handler) : Handler :=
  mkHandler (Func x) id (Priority x).

Definition hasId (id : string) (existing : Handler) : bool :=
  String.eqb (Id existing) id.

(** The [DUPLICATE_CHECK] loop of [Bind]: scan the registry; on a match draw
    a new id and scan again from the start.  The loop has no bound in the
    source; [fuel] bounds the number of scans here and [None] means the bound
    was reached. *)
Fixpoint DUPLICATE_CHECK
    (fuel : nat) (hs : list Handler) (id : string) (r : Rand)
    : option (string * Rand) :=
  match fuel with
  | 0 => None
  | S fuel' =>
      if existsb (hasId id) hs
      then let (id', r') := generateHookId r in DUPLICATE_CHECK fuel' hs id' r'
      else Some (id, r)
  end.

(** The replacement loop of [Bind]: overwrite the first entry whose id
    matches and stop; the flag is the source's [exists]. *)
Fixpoint replaceExisting (hs : list Handler) (handler : Handler)
    : list Handler * bool :=
  match hs with
  | [] => ([], false)
  | existing :: tl =>
      if hasId (Id handler) existing
      then (handler :: tl, true)
      else let (tl', found) := replaceExisting tl handler in
           (existing :: tl', found)
  end.

(** [sort.SliceStable] with [less i j := handlers[i].Priority <
    handlers[j].Priority], as a stable insertion sort: each element in turn
    moves left past the elements it is strictly less than. *)
Fixpoint insertStable (sorted : list Handler) (x : Handler) : list Handler :=
  match sorted with
  | [] => [x]
  | y :: tl =>
      if (Priority x <? Priority y)%Z
      then x :: y :: tl
      else y :: insertStable tl x
  end.

Definition sortStable (hs : list Handler) : list Handler :=
  fold_left insertStable hs [].

(** The registry's sequence after the insertion or replacement step of
    [Bind] and before the sort. *)
Definition place (hs : list Handler) (handler : Handler) : list Handler :=
  let (hs', found) := replaceExisting hs handler in
  if found then hs' else hs ++ [handler].

(** [Hook.Bind].  The result is the returned id, the registry and the random
    source afterwards; [None] only when [DUPLICATE_CHECK] ran out of fuel. *)
Definition Bind (fuel : nat) (h : Hook) (handler : option Handler) (r : Rand)
    : option (string * Hook * Rand) :=
  match handler with
  | None => Some ("", h, r)
  | Some x =>
      match Func x with
      | None => Some ("", h, r)
      | Some _ =>
          if String.eqb (Id x) ""
          then
            let (id0, r0) := generateHookId r in
            match DUPLICATE_CHECK fuel (handlers h) id0 r0 with
            | None => None
            | Some (id, r') =>
                Some (id, mkHook (sortStable (handlers h ++ [setId id x])), r')
            end
          else
            Some (Id x, mkHook (sortStable (place (handlers h) x)), r)
      end
  end.

(** [Hook.BindFunc]. *)
Definition BindFunc (fuel : nat) (h : Hook) (fn : option HandlerFunc) (r : Rand)
    : option (string * Hook * Rand) :=
  Bind fuel h (Some (mkHandler fn "" 0%Z)) r.

(** The inner loop of [Unbind] runs from the last index down and removes the
    first match it meets. *)
Fixpoint removeFirst (id : string) (hs : list Handler) : list Handler :=
  match hs with
  | [] => []
  | x :: tl => if hasId id x then tl else x :: removeFirst id tl
  end.

Definition removeLast (id : string) (hs : list Handler) : list Handler :=
  rev (removeFirst id (rev hs)).

Definition Unbind (idsToRemove : list string) (h : Hook) : Hook :=
  mkHook (fold_left (fun hs id => removeLast id hs) idsToRemove (handlers h)).

Definition UnbindAll (h : Hook) : Hook := mkHook [].

Definition Length (h : Hook) : nat := List.length (handlers h).

(** Ascending priority, the handlers of one priority, the ids of a
    sequence. *)
Definition le_prio (a b : Handler) : Prop := (Priority a <= Priority b)%Z.

Definition hasPrio (p : Z) (a : Handler) : bool := (Priority a =? p)%Z.

Definition ids (hs : list Handler) : list string := map Id hs.

(** What every reachable registry satisfies: ids are pairwise distinct and
    non-empty, no function is nil, priorities ascend. *)
Definition wf_registry (hs : list Handler) : Prop :=
  NoDup (ids hs) /\
  Forall (fun x => Id x <> "") hs /\
  Forall (fun x => Func x <> None) hs /\
  StronglySorted le_prio hs.

(** The registries a program can build: the zero value and whatever [Bind],
    [Unbind] and [UnbindAll] make of it. *)
Inductive reachable : Hook -> Prop :=
| reach_zero : reachable (mkHook [])
| reach_Bind fuel h handler r id h' r' :
    reachable h ->
    Bind fuel h handler r = Some (id, h', r') ->
    reachable h'
| reach_Unbind ids h : reachable h -> reachable (Unbind ids h)
| reach_UnbindAll h : reachable h -> reachable (UnbindAll h).

(** ** Event and the continuation chain *)

(** A value of type [func() error] held in [Event.next]: [nil], or the
    closure literal of [Trigger],
    [func() error { event.setNextFunc(old); return handlers[i](event) }],
    given by its captured variables. *)
Inductive NextFunc : Type :=
| nil_func
| closure (old : NextFunc) (handlers : list (option HandlerFunc)) (i : nat).

(** The objects one trigger works on: the registry, the event's [next] field
    and the state handlers act on.  [invoked] is a history variable, not
    program state: the handler functions called so far, oldest first. *)
Record State : Type := mkState {
  st_hook : Hook;
  ev_next : NextFunc;
  world : W;
  invoked : list HandlerFunc
}.

(** [Event.nextFunc] and [Event.setNextFunc]. *)
Definition nextFunc (s : State) : NextFunc := ev_next s.

Definition setNextFunc (f : NextFunc) (s : State) : State :=
  mkState (st_hook s) f (world s) (invoked s).

Definition setWorld (w : W) (s : State) : State :=
  mkState (st_hook s) (ev_next s) w (invoked s).

Definition record (fn : HandlerFunc) (s : State) : State :=
  mkState (st_hook s) (ev_next s) (world s) (invoked s ++ [fn]).

(** What a call returns: normally, with a Go panic (a nil function called,
    an index out of range), or not within the evaluation bound. *)
Inductive result : Type :=
| Done (e : error) (s : State)
| Panic
| OutOfFuel.

(** [Event.Next], given what calling a [func() error] value does. *)
Definition EventNext (call : NextFunc -> State -> result) (s : State) : result :=
  match ev_next s with
  | nil_func => Done None s
  | f => call f s
  end.

(** Running a handler function on the event. *)
Fixpoint exec (call : NextFunc -> State -> result) (fn : HandlerFunc) (s : State)
    : result :=
  match fn with
  | Ret e => Done e s
  | CallNext k =>
      match EventNext call s with
      | Done e s' => exec call (k e) s'
      | Panic => Panic
      | OutOfFuel => OutOfFuel
      end
  | Get k => exec call (k (world s)) s
  | Put w k => exec call k (setWorld w s)
  end.

(** Calling a [func() error] value.  [fuel] bounds the nesting of such calls. *)
Fixpoint invoke (fuel : nat) (f : NextFunc) (s : State) : result :=
  match fuel with
  | 0 => OutOfFuel
  | S fuel' =>
      match f with
      | nil_func => Panic
      | closure old hs i =>
          let s1 := setNextFunc old s in
          match nth_error hs i with
          | Some (Some fn) => exec (invoke fuel') fn (record fn s1)
          | Some None => Panic
          | None => Panic
          end
      end
  end.

(** The number of closures linked through [old]. *)
Fixpoint depth (f : NextFunc) : nat :=
  match f with
  | nil_func => 0
  | closure old _ _ => S (depth old)
  end.

(** [event.Next()] called from outside a handler.  A call of a closure only
    ever nests calls of closures it links to, so [depth] is bound enough
    ([Next_fuel] below). *)
Definition NextF (fuel : nat) (s : State) : result :=
  EventNext (invoke fuel) s.

Definition Next (s : State) : result := NextF (depth (ev_next s)) s.

(** The loop [for i := len(handlers) - 1; i >= 0; i--] of [Trigger], entered
    with [n] iterations left (so the next [i] is [n - 1]). *)
Fixpoint buildChain (hs : list (option HandlerFunc)) (n : nat) (s : State)
    : State :=
  match n with
  | 0 => s
  | S i =>
      let old := nextFunc s in
      buildChain hs i (setNextFunc (closure old hs i) s)
  end.

(** The local slice [handlers] of [Trigger]. *)
Definition chainOf (h : Hook) (oneOffHandlerFuncs : list (option HandlerFunc))
    : list (option HandlerFunc) :=
  map Func (handlers h) ++ oneOffHandlerFuncs.

(** [Trigger] up to, and excluding, the final [event.Next()]. *)
Definition prepare (s : State) (oneOffHandlerFuncs : list (option HandlerFunc))
    : State :=
  let hs := chainOf (st_hook s) oneOffHandlerFuncs in
  buildChain hs (List.length hs) (setNextFunc nil_func s).

(** [Hook.Trigger]. *)
Definition TriggerF (fuel : nat) (s : State)
    (oneOffHandlerFuncs : list (option HandlerFunc)) : result :=
  NextF fuel (prepare s oneOffHandlerFuncs).

Definition Trigger (s : State) (oneOffHandlerFuncs : list (option HandlerFunc))
    : result :=
  Next (prepare s oneOffHandlerFuncs).

(** The continuation [Trigger] installs for the last [k] entries of [hs]:
    used to state what [buildChain] builds. *)
Fixpoint chainTail (hs : list (option HandlerFunc)) (k : nat) : NextFunc :=
  match k with
  | 0 => nil_func
  | S k' => closure (chainTail hs k') hs (List.length hs - S k')
  end.

(** What holds of a run that started with the last [length rest] entries of
    [hs] still ahead: it ran the next entries in order, each once, the
    pointer is the continuation of what is left, the registry is as it was. *)
Definition chain_post (hs rest : list (option HandlerFunc)) (s : State)
    (r : result) : Prop :=
  match r with
  | Done e s' =>
      exists d rest',
        rest = map Some d ++ rest' /\
        ev_next s' = chainTail hs (List.length rest') /\
        st_hook s' = st_hook s /\
        invoked s' = invoked s ++ d
  | Panic => In None hs
  | OutOfFuel => False
  end.

(** ** Shapes of handler functions *)

(** Never calls [e.Next()] and returns [e] on every path. *)
Inductive vetoes (e : error) : HandlerFunc -> Prop :=
| vetoes_Ret : vetoes e (Ret e)
| vetoes_Get k : (forall w, vetoes e (k w)) -> vetoes e (Get k)
| vetoes_Put w k : vetoes e k -> vetoes e (Put w k).

(** Calls [e.Next()] exactly once on every path and returns what it
    returned. *)
Inductive forwards : HandlerFunc -> Prop :=
| forwards_Next k : (forall e, vetoes e (k e)) -> forwards (CallNext k)
| forwards_Get k : (forall w, forwards (k w)) -> forwards (Get k)
| forwards_Put w k : forwards k -> forwards (Put w k).

(** Calls [e.Next()] exactly once on every path and returns nil whatever it
    returned. *)
Inductive swallows : HandlerFunc -> Prop :=
| swallows_Next k : (forall e, vetoes None (k e)) -> swallows (CallNext k)
| swallows_Get k : (forall w, swallows (k w)) -> swallows (Get k)
| swallows_Put w k : swallows k -> swallows (Put w k).

(** Calls [e.Next()] at least once on every path. *)
Inductive callsNext : HandlerFunc -> Prop :=
| callsNext_Next k : callsNext (CallNext k)
| callsNext_Get k : (forall w, callsNext (k w)) -> callsNext (Get k)
| callsNext_Put w k : callsNext k -> callsNext (Put w k).

End Pipeline.

Arguments Ret {W} e.
Arguments CallNext {W} k.
Arguments Get {W} k.
Arguments Put {W} w k.
Arguments mkHandler {W} Func Id Priority.
Arguments mkHook {W} handlers.
Arguments Func {W} h.
Arguments Id {W} h.
Arguments Priority {W} h.
Arguments handlers {W} h.
Arguments setId {W} id x.
Arguments hasId {W} id existing.
Arguments DUPLICATE_CHECK {W} fuel hs id r.
Arguments replaceExisting {W} hs handler.
Arguments insertStable {W} sorted x.
Arguments sortStable {W} hs.
Arguments place {W} hs handler.
Arguments Bind {W} fuel h handler r.
Arguments BindFunc {W} fuel h fn r.
Arguments removeFirst {W} id hs.
Arguments removeLast {W} id hs.
Arguments Unbind {W} idsToRemove h.
Arguments UnbindAll {W} h.
Arguments Length {W} h.
Arguments reachable {W} h.
Arguments nil_func {W}.
Arguments closure {W} old handlers i.
Arguments mkState {W} st_hook ev_next world invoked.
Arguments st_hook {W} s.
Arguments ev_next {W} s.
Arguments world {W} s.
Arguments invoked {W} s.
Arguments nextFunc {W} s.
Arguments setNextFunc {W} f s.
Arguments setWorld {W} w s.
Arguments record {W} fn s.
Arguments Done {W} e s.
Arguments Panic {W}.
Arguments OutOfFuel {W}.
Arguments EventNext {W} call s.
Arguments exec {W} call fn s.
Arguments invoke {W} fuel f s.
Arguments depth {W} f.
Arguments NextF {W} fuel s.
Arguments Next {W} s.
Arguments buildChain {W} hs n s.
Arguments chainOf {W} h oneOffHandlerFuncs.
Arguments prepare {W} s oneOffHandlerFuncs.
Arguments TriggerF {W} fuel s oneOffHandlerFuncs.
Arguments Trigger {W} s oneOffHandlerFuncs.
Arguments chainTail {W} hs k.
Arguments chain_post {W} hs rest s r.
Arguments le_prio {W} a b.
Arguments hasPrio {W} p a.
Arguments ids {W} hs.
Arguments wf_registry {W} hs.
Arguments vetoes {W} e _.
Arguments forwards {W} _.
Arguments swallows {W} _.
Arguments callsNext {W} _.

(** ** The registry of the three-handler example *)

(** A handler that appends its name to the shared log and returns
    [e.Next()]. *)
Definition logging (name : string) : HandlerFunc (list string) :=
  Get (fun log => Put (log ++ [name]) (CallNext (fun err => Ret err))).

Definition H1 : Handler (list string) := mkHandler (Some (logging "H1")) "h1" 0%Z.
Definition H2 : Handler (list string) := mkHandler (Some (logging "H2")) "h2" (-5)%Z.
Definition H3 : Handler (list string) := mkHandler (Some (logging "H3")) "h3" 0%Z.

(** A fresh event on registry [h], with state [w] for the handlers. *)
Definition newEvent {W : Type} (h : Hook W) (w : W) : State W :=
  mkState h nil_func w [].

(** Bind the handlers of [xs] one after the other; the first component is
    the list of returned ids. *)
Fixpoint bindAll {W : Type} (fuel : nat) (h : Hook W) (xs : list (Handler W))
    (r : Rand) : option (list string * Hook W * Rand) :=
  match xs with
  | [] => Some ([], h, r)
  | x :: xs' =>
      match Bind fuel h (Some x) r with
      | None => None
      | Some (id, h', r') =>
          match bindAll fuel h' xs' r' with
          | None => None
          | Some (ids, h'', r'') => Some (id :: ids, h'', r'')
          end
      end
  end.

Definition counting : Rand := fun k => k.

(** The id held after [n] more draws of [generateHookId], starting from
    [id]: the candidates [DUPLICATE_CHECK] goes through. *)
Fixpoint regenerate (n : nat) (id : string) (r : Rand) : string * Rand :=
  match n with
  | 0 => (id, r)
  | S n' => let (id', r') := generateHookId r in regenerate n' id' r'
  end.



(** The handlers [Bind] stored for [xs] when it returned [idl]. *)
Definition stored {W : Type} (idl : list string) (xs : list (Handler W))
    : list (Handler W) :=
  map (fun ix => setId (fst ix) (snd ix)) (combine idl xs).

(** ** Handlers used in the examples below *)

(** Returns an error without calling [e.Next()]. *)
Definition veto : HandlerFunc (list string) := Ret (Some "veto").

(** Calls [e.Next()], drops the error and returns nil. *)
Definition swallow : HandlerFunc (list string) := CallNext (fun _ => Ret None).

(** Calls [e.Next()] twice, drops both errors and returns nil. *)
Definition twice : HandlerFunc (list string) :=
  CallNext (fun _ => CallNext (fun _ => Ret None)).

Definition vetoHook : Hook (list string) :=
  mkHook [H2; mkHandler (Some veto) "v" (-1)%Z; H1; H3].

Definition swallowHook : Hook (list string) :=
  mkHook [H2; mkHandler (Some swallow) "s" (-2)%Z; H1;
          mkHandler (Some veto) "v" 0%Z; H3].

Definition twiceHook : Hook (list string) :=
  mkHook [mkHandler (Some twice) "t" (-9)%Z; mkHandler (Some veto) "v" (-1)%Z; H3].

Definition registry123 : Hook (list string) := mkHook [H2; H1; H3].

(** A handler to take the place of [H1] under the same id, with another
    priority. *)
Definition H1' : Handler (list string) :=
  mkHandler (Some (logging "H1'")) "h1" 7%Z.

(** Handlers without an id, and one without a function. *)
Definition anon (name : string) : Handler (list string) :=
  mkHandler (Some (logging name)) "" 0%Z.

Definition noFunc : Handler (list string) := mkHandler None "z" 0%Z.

(** A random source whose second identifier repeats the first. *)
Definition repeating : Rand := fun k => if (k <? 40)%nat then k mod 20 else k.

(** ** The transports' send hook (sendmail.go and the SMTP client) *)

Section Mailer.

(** [*Message] values, and what lies outside the process and delivery acts
    on: the SMTP server, the sendmail binary. *)
Variables (Message Env : Type).

(** What a handler of the send hook can reach: the [Message] field of the
    [SendEvent] and the outside. *)
Record SendWorld : Type := mkSendWorld {
  ev_Message : Message;
  outside : Env
}.

(** [SMTPClient]; the connection settings only matter to [send]. *)
Record SMTPClient : Type := mkSMTPClient {
  smtp_onSend : option (Hook SendWorld);
  TLS : bool;
  Port : Z;
  Host : string;
  Username : string;
  Password : string;
  AuthMethod : string;
  LocalName : string
}.

Record Sendmail : Type := mkSendmail {
  sendmail_onSend : option (Hook SendWorld)
}.

(** The unexported [send] methods: the SMTP dialogue and the run of the
    sendmail command.  They are input and output only and are parameters
    here. *)
Variable SMTPClient_send : SMTPClient -> Message -> Env -> error * Env.
Variable Sendmail_send : Sendmail -> Message -> Env -> error * Env.

(** What [Send] returns and leaves behind: the error, the hook and the
    outside. *)
Inductive SendResult : Type :=
| Sent (e : error) (h : option (Hook SendWorld)) (env : Env)
| SendPanic
| SendOutOfFuel.

(** The function literal [func(e *SendEvent) error { return
    c.send(e.Message) }]. *)
Definition deliverFunc (deliver : Message -> Env -> error * Env)
    : HandlerFunc SendWorld :=
  Get (fun w =>
    let (err, env') := deliver (ev_Message w) (outside w) in
    Put (mkSendWorld (ev_Message w) env') (Ret err)).

(** [&SendEvent{Message: m}], with the hook it is triggered on. *)
Definition newSendEvent (h : Hook SendWorld) (m : Message) (env : Env)
    : State SendWorld :=
  mkState h nil_func (mkSendWorld m env) [].

Definition finish (r : result SendWorld) : SendResult :=
  match r with
  | Done e s => Sent e (Some (st_hook s)) (outside (world s))
  | Panic => SendPanic
  | OutOfFuel => SendOutOfFuel
  end.

(** [SMTPClient.Send]. *)
Definition SMTPClient_Send (c : SMTPClient) (m : Message) (env : Env)
    : SendResult :=
  match smtp_onSend c with
  | Some h =>
      finish (Trigger (newSendEvent h m env)
                      [Some (deliverFunc (SMTPClient_send c))])
  | None => let (e, env') := SMTPClient_send c m env in Sent e None env'
  end.

(** [Sendmail.Send]. *)
Definition Sendmail_Send (c : Sendmail) (m : Message) (env : Env)
    : SendResult :=
  match sendmail_onSend c with
  | Some h =>
      finish (Trigger (newSendEvent h m env)
                      [Some (deliverFunc (Sendmail_send c))])
  | None => let (e, env') := Sendmail_send c m env in Sent e None env'
  end.

(** [SMTPClient.OnSend] and [Sendmail.OnSend]: the hook, created on first
    use. *)
Definition SMTPClient_OnSend (c : SMTPClient) : SMTPClient * Hook SendWorld :=
  match smtp_onSend c with
  | Some h => (c, h)
  | None =>
      (mkSMTPClient (Some (mkHook [])) (TLS c) (Port c) (Host c) (Username c)
                    (Password c) (AuthMethod c) (LocalName c),
       mkHook [])
  end.

Definition Sendmail_OnSend (c : Sendmail) : Sendmail * Hook SendWorld :=
  match sendmail_onSend c with
  | Some h => (c, h)
  | None => (mkSendmail (Some (mkHook [])), mkHook [])
  end.

(** The spec's wording for a transport with an exposed hook: trigger the
    hook on a send event carrying [m], with the delivery as the one and only
    one-off action. *)
Definition routed_Send (h : Hook SendWorld)
    (deliver : Message -> Env -> error * Env) (m : Message) (env : Env)
    : SendResult :=
  finish (Trigger (newSendEvent h m env) [Some (deliverFunc deliver)]).

End Mailer.

Arguments mkSendWorld {Message Env} ev_Message outside.
Arguments ev_Message {Message Env} s.
Arguments outside {Message Env} s.
Arguments mkSMTPClient {Message Env} smtp_onSend TLS Port Host Username
  Password AuthMethod LocalName.
Arguments smtp_onSend {Message Env} s.
Arguments mkSendmail {Message Env} sendmail_onSend.
Arguments sendmail_onSend {Message Env} s.
Arguments Sent {Message Env} e h env.
Arguments SendPanic {Message Env}.
Arguments SendOutOfFuel {Message Env}.
Arguments deliverFunc {Message Env} deliver.
Arguments newSendEvent {Message Env} h m env.
Arguments finish {Message Env} r.
Arguments SMTPClient_Send {Message Env} SMTPClient_send c m env.
Arguments Sendmail_Send {Message Env} Sendmail_send c m env.
Arguments SMTPClient_OnSend {Message Env} c.
Arguments Sendmail_OnSend {Message Env} c.
Arguments routed_Send {Message Env} h deliver m env.

(** ** A transport used in the examples below *)

(** Delivery that always succeeds and appends the message to the outside. *)
Definition outbox (m : string) (env : list string) : error * list string :=
  (None, env ++ [m]).

(** A handler of the send hook that marks the message and returns
    [e.Next()]. *)
Definition stamp : HandlerFunc (@SendWorld string (list string)) :=
  Get (fun w =>
    Put (mkSendWorld (String.append (ev_Message w) "!") (outside w))
        (CallNext (fun err => Ret err))).

Definition stampHook : Hook (@SendWorld string (list string)) :=
  mkHook [mkHandler (Some stamp) "stamp" 0%Z].

Definition smtpClient : @SMTPClient string (list string) :=
  mkSMTPClient (Some stampHook) true 587%Z "smtp.example.com" "user" "secret"
               "PLAIN" "localhost".

Definition sendmailClient : @Sendmail string (list string) :=
  mkSendmail (Some stampHook).

(** Every character of [s] occurs in [alphabet]. *)
Definition drawnFrom (alphabet s : string) : Prop :=
  Forall (fun c => In c (list_ascii_of_string alphabet)) (list_ascii_of_string s).

(** The shape of an id made by [generateHookId]. *)
Definition hookIdShape (id : string) : Prop :=
  String.length id = 20 /\ drawnFrom defaultRandomAlphabet id.

(** ** Messages and the delivery of the two transports *)

(** [mail.Address]. *)
Record mail_Address : Type := mkAddress {
  Name : string;
  Address : string
}.

(** [smtp.Auth] values [SMTPClient.send] chooses from: [&smtpLoginAuth{...}]
    and [smtp.PlainAuth(identity, username, password, host)]. *)
Inductive SMTPAuth : Type :=
| LoginAuth (username password : string)
| PlainAuth (identity username password host : string).

(** An [exec.Cmd] ready to run: path, arguments and standard input. *)
Record Command : Type := mkCommand {
  cmd_path : string;
  cmd_args : list string;
  cmd_stdin : string
}.

Definition CRLF : string :=
  String (ascii_of_nat 13) (String (ascii_of_nat 10) EmptyString).

Definition SMTPAuthLogin : string := "LOGIN".

Section Delivery.

(** [io.Reader] values, and the outside as before. *)
Variables (Reader Env : Type).

(** [Message].  The maps are kept as association lists. *)
Record MessageData : Type := mkMessage {
  From : mail_Address;
  To : list mail_Address;
  Bcc : list mail_Address;
  Cc : list mail_Address;
  Subject : string;
  HTML : string;
  Text : string;
  Headers : list (string * string);
  Attachments : list (string * Reader);
  InlineAttachments : list (string * Reader)
}.

(** Library functions: [mail.Address.String], [mime.QEncoding.Encode] with
    charset utf-8, [http.Header.Write] on the header made by the given
    [Set] calls, [exec.LookPath] (nil error is [Some]) and [exec.Cmd.Run]. *)
Variable Address_String : mail_Address -> string.
Variable QEncode : string -> string.
Variable Header_Write : list (string * string) -> string.
Variable LookPath : string -> Env -> option string.
Variable Run : Command -> Env -> error * Env.

(** [addressesToStrings]. *)
Definition addressesToStrings (addresses : list mail_Address) (withName : bool)
    : list string :=
  map (fun addr =>
         if withName && negb (String.eqb (Name addr) "")
         then Address_String addr
         else Address addr)
      addresses.

(** The loop of [findSendmailPath] over [options]. *)
Fixpoint firstLookPath (options : list string) (env : Env) : option string :=
  match options with
  | [] => None
  | option :: rest =>
      match LookPath option env with
      | Some path => Some path
      | None => firstLookPath rest env
      end
  end.

(** [findSendmailPath]. *)
Definition findSendmailPath (env : Env) : string * error :=
  match firstLookPath ["/usr/sbin/sendmail"; "/usr/bin/sendmail"; "sendmail"] env with
  | Some path => (path, None)
  | None => ("", Some "无法找到 sendmail 可执行文件路径")
  end.

(** [Sendmail.send].  Writes to a [bytes.Buffer] never fail, so the
    branches returning their error are left out. *)
Definition Sendmail_send_impl (c : @Sendmail (option MessageData) Env)
    (m : option MessageData) (env : Env) : error * Env :=
  match m with
  | None => (Some "message is nil", env)
  | Some m =>
      if String.eqb (Address (From m)) "" then
        (Some "from address is required", env)
      else if Nat.eqb (List.length (To m)) 0 then
        (Some "at least one recipient in To is required", env)
      else
        let toAddresses := addressesToStrings (To m) false in
        let headers :=
          [("Subject", QEncode (Subject m));
           ("From", Address_String (From m));
           ("Content-Type",
            if negb (String.eqb (HTML m) "")
            then "text/html; charset=UTF-8"
            else "text/plain; charset=UTF-8");
           ("To", String.concat "," toAddresses)] in
        match findSendmailPath env with
        | (_, Some err) => (Some err, env)
        | (cmdPath, None) =>
            let body :=
              if negb (String.eqb (HTML m) "") then HTML m
              else if negb (String.eqb (Text m) "") then Text m
              else "(empty body)" in
            let buffer :=
              String.append (Header_Write headers) (String.append CRLF body) in
            Run (mkCommand cmdPath toAddresses buffer) env
        end
  end.

(** Everything [SMTPClient.send] does after it has chosen the
    authentication: building the mail with the MailYak library from the
    client's [TLS], [Port], [Host] and [LocalName], the authentication and
    the message, and sending it. *)
Variable smtpDeliver :
  bool -> Z -> string -> string -> option SMTPAuth -> MessageData -> Env ->
  error * Env.

(** [SMTPClient.send] up to that point. *)
Definition SMTPClient_send_impl (c : @SMTPClient (option MessageData) Env)
    (m : option MessageData) (env : Env) : error * Env :=
  match m with
  | None => (Some "message is nil", env)
  | Some m =>
      if String.eqb (Address (From m)) "" then
        (Some "from address is required", env)
      else if Nat.eqb (List.length (To m)) 0
              && Nat.eqb (List.length (Cc m)) 0
              && Nat.eqb (List.length (Bcc m)) 0 then
        (Some "at least one recipient (To/Cc/Bcc) is required", env)
      else if negb (String.eqb (Username _ _ c) "")
              || negb (String.eqb (Password _ _ c) "") then
        if String.eqb (Username _ _ c) "" || String.eqb (Password _ _ c) "" then
          (Some "both username and password are required when using SMTP auth",
           env)
        else
          let smtpAuth :=
            if String.eqb (AuthMethod _ _ c) SMTPAuthLogin
            then LoginAuth (Username _ _ c) (Password _ _ c)
            else PlainAuth "" (Username _ _ c) (Password _ _ c) (Host _ _ c) in
          smtpDeliver (TLS _ _ c) (Port _ _ c) (Host _ _ c) (LocalName _ _ c) (Some smtpAuth) m env
      else
        smtpDeliver (TLS _ _ c) (Port _ _ c) (Host _ _ c) (LocalName _ _ c) None m env
  end.

End Delivery.

Arguments mkMessage {Reader} From To Bcc Cc Subject HTML Text Headers
  Attachments InlineAttachments.
Arguments From {Reader} m.
Arguments To {Reader} m.
Arguments Bcc {Reader} m.
Arguments Cc {Reader} m.
Arguments Subject {Reader} m.
Arguments HTML {Reader} m.
Arguments Text {Reader} m.
Arguments Headers {Reader} m.
Arguments Attachments {Reader} m.
Arguments InlineAttachments {Reader} m.
Arguments firstLookPath {Env} LookPath options env.
Arguments findSendmailPath {Env} LookPath env.
Arguments Sendmail_send_impl {Reader Env} Address_String QEncode Header_Write
  LookPath Run c m env.
Arguments SMTPClient_send_impl {Reader Env} smtpDeliver c m env.

(** ** Values for the examples of the delivery and of the registry *)

(** A handler to bind under a new id, with the priority of [H2]. *)
Definition H4 : Handler (list string) :=
  mkHandler (Some (logging "H4")) "h4" (-5)%Z.

(** The event after [vetoHook] was triggered on a fresh one. *)
Definition vetoAfter : State (list string) :=
  match Trigger (newEvent vetoHook []) [] with
  | Done _ s' => s'
  | _ => newEvent vetoHook []
  end.

(** An outside that is the list of commands run so far, a file system with
    the binary in /usr/bin only, and plain renderings of addresses and
    headers. *)
Definition demoAddressString (a : mail_Address) : string :=
  String.append (Name a) (String.append " <" (String.append (Address a) ">")).

Definition demoHeaderWrite (entries : list (string * string)) : string :=
  String.concat ""
    (map (fun kv => String.append (fst kv)
                      (String.append ": " (String.append (snd kv) CRLF)))
         entries).

Definition demoLookPath (file : string) (env : list Command) : option string :=
  if String.eqb file "/usr/bin/sendmail" then Some file else None.

Definition demoRun (cmd : Command) (env : list Command)
    : error * list Command :=
  (None, env ++ [cmd]).

Definition demoDeliver (tls : bool) (port : Z) (host localName : string)
    (auth : option SMTPAuth) (m : @MessageData unit) (env : list Command)
    : error * list Command :=
  (None, env).

Definition demoMessage : @MessageData unit :=
  mkMessage (mkAddress "System" "noreply@example.com")
            [mkAddress "User" "user@example.com"; mkAddress "" "b@example.com"]
            [] [] "Hello" "" "plain text" [] [] [].

Definition noSender : @MessageData unit :=
  mkMessage (mkAddress "System" "") [mkAddress "User" "user@example.com"]
            [] [] "Hello" "" "plain text" [] [] [].

Definition ccOnly : @MessageData unit :=
  mkMessage (mkAddress "System" "noreply@example.com") []
            [] [mkAddress "User" "user@example.com"] "Hello" "" "" [] [] [].

Definition plainSendmail : @Sendmail (option (@MessageData unit)) (list Command) :=
  mkSendmail None.

Definition plainSMTP : @SMTPClient (option (@MessageData unit)) (list Command) :=
  mkSMTPClient None true 587%Z "smtp.example.com" "" "" "" "".

Definition halfAuthSMTP : @SMTPClient (option (@MessageData unit)) (list Command) :=
  mkSMTPClient None true 587%Z "smtp.example.com" "user" "" "" "".

(** ** What handlers do in one run *)

Section Runs.

Context {W : Type}.

(** In the run from [s] the function does not call [e.Next()] and returns
    [e], leaving [s']. *)
Inductive quiet_run : HandlerFunc W -> State W -> error -> State W -> Prop :=
| quiet_Ret e s : quiet_run (Ret e) s e s
| quiet_Get k s e s' :
    quiet_run (k (world s)) s e s' -> quiet_run (Get k) s e s'
| quiet_Put w k s e s' :
    quiet_run k (setWorld w s) e s' -> quiet_run (Put w k) s e s'.

(** In the run from [s] the function calls [e.Next()] exactly once and
    returns the error that call returned; [N s1 e1 s2] says that the call,
    made in [s1], returned [e1] and left [s2]. *)
Inductive forward_run (N : State W -> error -> State W -> Prop)
    : HandlerFunc W -> State W -> error -> State W -> Prop :=
| forward_Next k s e s1 s' :
    N s e s1 -> quiet_run (k e) s1 e s' -> forward_run N (CallNext k) s e s'
| forward_Get k s e s' :
    forward_run N (k (world s)) s e s' -> forward_run N (Get k) s e s'
| forward_Put w k s e s' :
    forward_run N k (setWorld w s) e s' -> forward_run N (Put w k) s e s'.

(** The state in which function [fn] of chain [hs] starts when the
    continuation is invoked in [s], with [rest] after it. *)
Definition enter (hs : list (option (HandlerFunc W))) (fn : HandlerFunc W)
    (rest : list (option (HandlerFunc W))) (s : State W) : State W :=
  record fn (setNextFunc (chainTail hs (List.length rest)) s).

(** [e.Next()] called in [s] with the functions [fw] and then [rest] ahead:
    in this run each function of [fw] in turn calls [Next] once and returns
    what it returned, and the call of the last of them behaves as [N]. *)
Fixpoint forwarded (hs : list (option (HandlerFunc W)))
    (fw : list (HandlerFunc W)) (rest : list (option (HandlerFunc W)))
    (N : State W -> error -> State W -> Prop)
    (s : State W) (e : error) (s' : State W) {struct fw} : Prop :=
  match fw with
  | [] => N s e s'
  | p :: fw' =>
      forward_run (forwarded hs fw' rest N) p
                  (enter hs p (map Some fw' ++ rest) s) e s'
  end.

(** The call reaches function [v], which in this run returns [e] without
    calling [Next]. *)
Definition vetoes_in_run (hs : list (option (HandlerFunc W)))
    (v : HandlerFunc W) (post : list (option (HandlerFunc W)))
    (s1 : State W) (e : error) (s2 : State W) : Prop :=
  quiet_run v (enter hs v post s1) e s2.

(** The call reaches function [sw], which in this run, calling [Next] as it
    does, returns nil. *)
Definition returns_nil_in_run (hs : list (option (HandlerFunc W)))
    (sw : HandlerFunc W) (post : list (option (HandlerFunc W)))
    (s1 : State W) (e : error) (s2 : State W) : Prop :=
  e = None /\
  exec (invoke (List.length post)) sw (enter hs sw post s1) = Done None s2.

End Runs.

(** A handler that rejects once something was logged, and forwards
    otherwise. *)
Definition validator : HandlerFunc (list string) :=
  Get (fun log =>
    match log with
    | [] => CallNext (fun err => Ret err)
    | _ :: _ => Ret (Some "rejected")
    end).

(** Calls [e.Next()] once and returns an error of its own. *)
Definition override : HandlerFunc (list string) :=
  CallNext (fun _ => Ret (Some "override")).

Definition validatorHook : Hook (list string) :=
  mkHook [H2; mkHandler (Some validator) "check" (-1)%Z; H1; H3].

Definition overrideHook : Hook (list string) :=
  mkHook [mkHandler (Some override) "o" (-9)%Z;
          mkHandler (Some swallow) "s" (-2)%Z;
          mkHandler (Some veto) "v" 0%Z].

Definition twiceSwallowHook : Hook (list string) :=
  mkHook [H2; mkHandler (Some twice) "t" (-4)%Z;
          mkHandler (Some veto) "v" (-1)%Z; H3].

(** * Facts about the registry *)

Section RegistryFacts.

Context {W : Type}.

Implicit Types (hs l acc : list (Handler W)) (x y : Handler W) (h : Hook W).

(** ** The stable sort *)

Lemma SS_app_iff l1 l2 :
  StronglySorted le_prio (l1 ++ l2) <->
  StronglySorted le_prio l1 /\ StronglySorted le_prio l2 /\
  (forall a b, In a l1 -> In b l2 -> le_prio a b).
Proof.
  induction l1 as [|a l1 IH]; simpl.
  - split.
    + intros H. repeat split; [constructor | assumption | contradiction].
    + intros (_ & H & _). exact H.
  - split.
    + intros H. apply StronglySorted_inv in H. destruct H as [Hs Hall].
      apply IH in Hs. destruct Hs as (H1 & H2 & H12).
      rewrite Forall_app in Hall. destruct Hall as [Ha1 Ha2].
      repeat split; [constructor; assumption | assumption |].
      intros a' b [<- | Hin] Hb.
      * rewrite Forall_forall in Ha2. now apply Ha2.
      * now apply H12.
    + intros (H1 & H2 & H12).
      apply StronglySorted_inv in H1. destruct H1 as [H1 Ha1].
      constructor.
      * apply IH. repeat split; auto.
      * rewrite Forall_app. split; [assumption |].
        rewrite Forall_forall. intros b Hb. apply H12; auto.
Qed.

Lemma insertStable_In l x z :
  In z (insertStable l x) <-> z = x \/ In z l.
Proof.
  induction l as [|y tl IH]; simpl.
  - intuition.
  - destruct (Priority x <? Priority y)%Z; simpl.
    + intuition.
    + rewrite IH. intuition.
Qed.

Lemma insertStable_perm l x : Permutation (insertStable l x) (l ++ [x]).
Proof.
  induction l as [|y tl IH]; simpl.
  - reflexivity.
  - destruct (Priority x <? Priority y)%Z.
    + change (x :: y :: tl) with ([x] ++ (y :: tl)).
      change (y :: tl ++ [x]) with ((y :: tl) ++ [x]).
      apply Permutation_app_comm.
    + now constructor.
Qed.

Lemma insertStable_sorted l x :
  StronglySorted le_prio l -> StronglySorted le_prio (insertStable l x).
Proof.
  induction l as [|y tl IH]; simpl; intros Hs.
  - repeat constructor.
  - apply StronglySorted_inv in Hs. destruct Hs as [Htl Hy].
    destruct (Priority x <? Priority y)%Z eqn:E.
    + apply Z.ltb_lt in E. constructor.
      * now constructor.
      * constructor; [unfold le_prio; lia |].
        eapply Forall_impl; [| exact Hy]. unfold le_prio. intros; lia.
    + apply Z.ltb_ge in E. constructor; [now apply IH |].
      rewrite Forall_forall. intros z Hz. apply insertStable_In in Hz.
      destruct Hz as [-> | Hz]; [exact E |].
      rewrite Forall_forall in Hy. now apply Hy.
Qed.

Lemma insertStable_last l x :
  StronglySorted le_prio (l ++ [x]) -> insertStable l x = l ++ [x].
Proof.
  induction l as [|y tl IH]; simpl; intros Hs; [reflexivity |].
  apply StronglySorted_inv in Hs. destruct Hs as [Htl Hy].
  rewrite Forall_app in Hy. destruct Hy as [_ Hx].
  apply Forall_inv in Hx. unfold le_prio in Hx.
  destruct (Priority x <? Priority y)%Z eqn:E.
  - apply Z.ltb_lt in E. lia.
  - now rewrite IH.
Qed.

Lemma filter_none {A : Type} (f : A -> bool) (l : list A) :
  (forall a, In a l -> f a = false) -> filter f l = [].
Proof.
  induction l as [|a l IH]; simpl; intros H; [reflexivity |].
  rewrite (H a) by now left. apply IH. intros b Hb. apply H. now right.
Qed.

Lemma insertStable_filter p l x :
  StronglySorted le_prio l ->
  filter (hasPrio p) (insertStable l x) = filter (hasPrio p) (l ++ [x]).
Proof.
  induction l as [|y tl IH]; intros Hs; [reflexivity |].
  apply StronglySorted_inv in Hs. destruct Hs as [Htl Hy].
  cbn [insertStable].
  destruct (Priority x <? Priority y)%Z eqn:E.
  - apply Z.ltb_lt in E.
    change ((y :: tl) ++ [x]) with (y :: (tl ++ [x])).
    cbn [filter]. rewrite filter_app. cbn [filter].
    destruct (hasPrio p x) eqn:Ex.
    + assert (Hy' : hasPrio p y = false).
      { unfold hasPrio in *. apply Z.eqb_eq in Ex. apply Z.eqb_neq. lia. }
      assert (Hnil : filter (hasPrio p) tl = []).
      { apply filter_none. intros z Hz.
        rewrite Forall_forall in Hy. specialize (Hy z Hz).
        unfold hasPrio, le_prio in *. apply Z.eqb_eq in Ex. apply Z.eqb_neq. lia. }
      rewrite Hy', Hnil. reflexivity.
    + now rewrite app_nil_r.
  - change ((y :: tl) ++ [x]) with (y :: (tl ++ [x])).
    cbn [filter]. rewrite IH by assumption. reflexivity.
Qed.

Lemma sortStable_snoc hs x :
  sortStable (hs ++ [x]) = insertStable (sortStable hs) x.
Proof. unfold sortStable. now rewrite fold_left_app. Qed.

Lemma sortStable_perm hs : Permutation (sortStable hs) hs.
Proof.
  induction hs as [|x hs IH] using rev_ind; [reflexivity |].
  rewrite sortStable_snoc, insertStable_perm.
  now apply Permutation_app_tail.
Qed.

Lemma sortStable_sorted hs : StronglySorted le_prio (sortStable hs).
Proof.
  induction hs as [|x hs IH] using rev_ind; [constructor |].
  rewrite sortStable_snoc. now apply insertStable_sorted.
Qed.

Lemma sortStable_stable p hs :
  filter (hasPrio p) (sortStable hs) = filter (hasPrio p) hs.
Proof.
  induction hs as [|x hs IH] using rev_ind; [reflexivity |].
  rewrite sortStable_snoc, insertStable_filter by apply sortStable_sorted.
  rewrite !filter_app. now rewrite IH.
Qed.

Lemma hasPrio_self x : hasPrio (Priority x) x = true.
Proof. apply Z.eqb_refl. Qed.

Lemma hasPrio_other p x : Priority x <> p -> hasPrio p x = false.
Proof. intros H. now apply Z.eqb_neq. Qed.

(** Two ascending sequences with the same handlers of every priority, in
    the same order, are equal: a stable sort has one possible result, so
    [sortStable] stands for any implementation of [sort.SliceStable]. *)
Lemma stable_sorted_unique l1 l2 :
  StronglySorted le_prio l1 -> StronglySorted le_prio l2 ->
  (forall p, filter (hasPrio p) l1 = filter (hasPrio p) l2) ->
  l1 = l2.
Proof.
  revert l2. induction l1 as [|a l1 IH]; intros l2 Hs1 Hs2 Hf.
  - destruct l2 as [|b l2]; [reflexivity |].
    specialize (Hf (Priority b)). cbn [filter] in Hf.
    rewrite hasPrio_self in Hf. discriminate.
  - apply StronglySorted_inv in Hs1. destruct Hs1 as [Hs1 Ha].
    destruct l2 as [|b l2].
    + specialize (Hf (Priority a)). cbn [filter] in Hf.
      rewrite hasPrio_self in Hf. discriminate.
    + apply StronglySorted_inv in Hs2. destruct Hs2 as [Hs2 Hb].
      rewrite Forall_forall in Ha, Hb.
      assert (Hp : Priority a = Priority b).
      { destruct (Z.lt_trichotomy (Priority a) (Priority b)) as [Hlt | [Heq | Hgt]];
          [| exact Heq |]; exfalso.
        - pose proof (Hf (Priority a)) as H. cbn [filter] in H.
          rewrite hasPrio_self, (hasPrio_other _ b) in H by lia.
          rewrite (filter_none (hasPrio (Priority a)) l2) in H; [discriminate |].
          intros z Hz. specialize (Hb z Hz). unfold le_prio in Hb.
          apply hasPrio_other. lia.
        - pose proof (Hf (Priority b)) as H. cbn [filter] in H.
          rewrite hasPrio_self, (hasPrio_other _ a) in H by lia.
          rewrite (filter_none (hasPrio (Priority b)) l1) in H; [discriminate |].
          intros z Hz. specialize (Ha z Hz). unfold le_prio in Ha.
          apply hasPrio_other. lia. }
      assert (Hab : a = b).
      { pose proof (Hf (Priority a)) as H. cbn [filter] in H.
        rewrite hasPrio_self in H. rewrite Hp, hasPrio_self in H.
        now injection H. }
      subst b. f_equal. apply IH; auto.
      intros p. specialize (Hf p). cbn [filter] in Hf.
      destruct (hasPrio p a); [now injection Hf | exact Hf].
Qed.

Lemma sortStable_id hs : StronglySorted le_prio hs -> sortStable hs = hs.
Proof.
  induction hs as [|x hs IH] using rev_ind; intros Hs; [reflexivity |].
  rewrite sortStable_snoc.
  assert (H : StronglySorted le_prio hs) by (apply SS_app_iff in Hs; tauto).
  rewrite IH by assumption. now apply insertStable_last.
Qed.

Lemma sortStable_length hs : List.length (sortStable hs) = List.length hs.
Proof. apply Permutation_length, sortStable_perm. Qed.

(** ** Identifiers *)

Lemma generateHookId_nonempty r : fst (generateHookId r) <> "".
Proof.
  unfold generateHookId, pseudorandomString.
  cbn [pseudorandomStringWithAlphabet].
  destruct (Intn r (String.length defaultRandomAlphabet)) as [idx r1].
  destruct (pseudorandomStringWithAlphabet 19 defaultRandomAlphabet r1) as [rest r2].
  cbn. discriminate.
Qed.

Lemma hasId_true id x : hasId id x = true <-> Id x = id.
Proof. unfold hasId. apply String.eqb_eq. Qed.

Lemma existsb_hasId id hs : existsb (hasId id) hs = true <-> In id (ids hs).
Proof.
  unfold ids. rewrite existsb_exists, in_map_iff. split.
  - intros (x & Hin & Hx). apply hasId_true in Hx. now exists x.
  - intros (x & Hx & Hin). exists x. split; [assumption | now apply hasId_true].
Qed.

Lemma existsb_hasId_false id hs :
  existsb (hasId id) hs = false <-> ~ In id (ids hs).
Proof.
  rewrite <- existsb_hasId. destruct (existsb (hasId id) hs); split;
    intros H; try discriminate; try reflexivity; exfalso; now apply H.
Qed.

(** Whatever [DUPLICATE_CHECK] returns is not an id of the registry, and it
    is the id it was entered with or a generated one. *)
Lemma DUPLICATE_CHECK_fresh fuel hs id r id' r' :
  DUPLICATE_CHECK fuel hs id r = Some (id', r') ->
  ~ In id' (ids hs) /\ (id' = id \/ id' <> "").
Proof.
  revert id r. induction fuel as [|fuel IH]; intros id r; cbn [DUPLICATE_CHECK].
  - discriminate.
  - destruct (existsb (hasId id) hs) eqn:E.
    + pose proof (generateHookId_nonempty r) as Hne.
      destruct (generateHookId r) as [id1 r1]. cbn in Hne. intros H.
      apply IH in H. destruct H as [Hfresh [-> | Hn]]; auto.
    + intros [= <- <-]. split; [now apply existsb_hasId_false | now left].
Qed.

(** [DUPLICATE_CHECK] returns as soon as a candidate is fresh. *)
Lemma DUPLICATE_CHECK_returns n hs id r fuel :
  n < fuel ->
  ~ In (fst (regenerate n id r)) (ids hs) ->
  exists res, DUPLICATE_CHECK fuel hs id r = Some res.
Proof.
  revert id r fuel. induction n as [|n IH]; intros id r fuel Hlt Hfresh;
    (destruct fuel as [|fuel]; [lia |]); cbn [DUPLICATE_CHECK regenerate] in *.
  - cbn [fst] in Hfresh. apply existsb_hasId_false in Hfresh.
    rewrite Hfresh. eauto.
  - destruct (existsb (hasId id) hs); [| eauto].
    destruct (generateHookId r) as [id1 r1]. apply IH; [lia | assumption].
Qed.

(** ** The replacement step *)

Lemma replaceExisting_found hs x hs' :
  replaceExisting hs x = (hs', true) ->
  exists l1 old l2,
    hs = l1 ++ old :: l2 /\ hs' = l1 ++ x :: l2 /\ Id old = Id x /\
    ~ In (Id x) (ids l1).
Proof.
  revert hs'. induction hs as [|e tl IH]; intros hs'; cbn [replaceExisting].
  - discriminate.
  - destruct (hasId (Id x) e) eqn:E.
    + intros [= <-]. apply hasId_true in E.
      exists [], e, tl. repeat split; auto.
    + destruct (replaceExisting tl x) as [tl' found]. intros [= <- ->].
      destruct (IH tl' eq_refl) as (l1 & old & l2 & -> & -> & Hid & Hn).
      exists (e :: l1), old, l2. repeat split; auto.
      cbn. intros [He | Hin]; [| now apply Hn].
      apply hasId_true in He. congruence.
Qed.

Lemma replaceExisting_missing hs x hs' :
  replaceExisting hs x = (hs', false) -> hs' = hs /\ ~ In (Id x) (ids hs).
Proof.
  revert hs'. induction hs as [|e tl IH]; intros hs'; cbn [replaceExisting].
  - intros [= <-]. auto.
  - destruct (hasId (Id x) e) eqn:E; [discriminate |].
    destruct (replaceExisting tl x) as [tl' found]. intros [= <- ->].
    destruct (IH tl' eq_refl) as [-> Hn]. split; [reflexivity |].
    cbn. intros [He | Hin]; [| now apply Hn].
    apply hasId_true in He. congruence.
Qed.

Lemma replaceExisting_first l1 old l2 x :
  Id old = Id x -> ~ In (Id x) (ids l1) ->
  replaceExisting (l1 ++ old :: l2) x = (l1 ++ x :: l2, true).
Proof.
  intros Hid. induction l1 as [|e l1 IH]; cbn; intros Hn.
  - apply hasId_true in Hid. now rewrite Hid.
  - destruct (hasId (Id x) e) eqn:E.
    + apply hasId_true in E. exfalso. apply Hn. now left.
    + rewrite IH; [reflexivity |]. intros Hin. apply Hn. now right.
Qed.

Lemma place_fresh hs x : ~ In (Id x) (ids hs) -> place hs x = hs ++ [x].
Proof.
  intros Hn. unfold place.
  destruct (replaceExisting hs x) as [hs' found] eqn:E.
  destruct found; [| reflexivity].
  apply replaceExisting_found in E.
  destruct E as (l1 & old & l2 & -> & _ & Hid & _).
  exfalso. apply Hn. unfold ids. rewrite map_app, in_app_iff. right. now left.
Qed.

Lemma place_cases hs x :
  (~ In (Id x) (ids hs) /\ place hs x = hs ++ [x]) \/
  (exists l1 old l2,
     hs = l1 ++ old :: l2 /\ place hs x = l1 ++ x :: l2 /\ Id old = Id x /\
     ~ In (Id x) (ids l1)).
Proof.
  unfold place. destruct (replaceExisting hs x) as [hs' found] eqn:E.
  destruct found.
  - right. apply replaceExisting_found in E.
    destruct E as (l1 & old & l2 & H1 & H2 & H3 & H4). now exists l1, old, l2.
  - left. apply replaceExisting_missing in E. tauto.
Qed.

(** ** What [Bind] and [Unbind] do to the sequence *)

Lemma setId_same x : setId (Id x) x = x.
Proof. now destruct x. Qed.

Lemma Bind_inv fuel h x r id h' r' :
  Func x <> None ->
  Bind fuel h (Some x) r = Some (id, h', r') ->
  handlers h' = sortStable (place (handlers h) (setId id x)) /\
  id <> "" /\
  (Id x <> "" -> id = Id x /\ r' = r) /\
  (Id x = "" -> ~ In id (ids (handlers h))).
Proof.
  intros Hf. unfold Bind. destruct (Func x) as [fn|] eqn:Efn; [| congruence].
  destruct (String.eqb (Id x) "") eqn:E.
  - apply String.eqb_eq in E.
    pose proof (generateHookId_nonempty r) as Hne.
    destruct (generateHookId r) as [id0 r0]. cbn [fst] in Hne.
    destruct (DUPLICATE_CHECK fuel (handlers h) id0 r0) as [[id1 r1]|] eqn:D;
      [| discriminate].
    intros [= <- <- <-]. apply DUPLICATE_CHECK_fresh in D.
    destruct D as [Hfresh Hid]. cbn [handlers].
    rewrite place_fresh by exact Hfresh.
    split; [reflexivity |]. split; [| split].
    + destruct Hid as [-> | Hid]; assumption.
    + intros Hx. congruence.
    + intros _. exact Hfresh.
  - apply String.eqb_neq in E. intros [= <- <- <-]. cbn [handlers].
    rewrite setId_same. split; [reflexivity |]. split; [| split].
    + exact E.
    + intros _. split; reflexivity.
    + intros Hx. congruence.
Qed.

Lemma removeFirst_cases id hs :
  (~ In id (ids hs) /\ removeFirst id hs = hs) \/
  (exists l1 x l2, hs = l1 ++ x :: l2 /\ removeFirst id hs = l1 ++ l2 /\
                   Id x = id).
Proof.
  induction hs as [|e tl IH]; cbn [removeFirst].
  - left. split; [intros [] | reflexivity].
  - destruct (hasId id e) eqn:E.
    + right. apply hasId_true in E. now exists [], e, tl.
    + destruct IH as [[Hn ->] | (l1 & x & l2 & -> & -> & Hx)].
      * left. split; [| reflexivity]. cbn. intros [He | Hin]; [| now apply Hn].
        apply hasId_true in He. congruence.
      * right. now exists (e :: l1), x, l2.
Qed.

Lemma ids_rev hs : ids (rev hs) = rev (ids hs).
Proof. unfold ids. apply map_rev. Qed.

Lemma removeLast_cases id hs :
  (~ In id (ids hs) /\ removeLast id hs = hs) \/
  (exists l1 x l2, hs = l1 ++ x :: l2 /\ removeLast id hs = l1 ++ l2 /\
                   Id x = id).
Proof.
  unfold removeLast.
  destruct (removeFirst_cases id (rev hs)) as [[Hn ->] | (l1 & x & l2 & Hr & -> & Hx)].
  - left. split; [| apply rev_involutive].
    intros Hin. apply Hn. rewrite ids_rev. now apply in_rev in Hin.
  - right. exists (rev l2), x, (rev l1). repeat split; [| apply rev_app_distr | exact Hx].
    rewrite <- (rev_involutive hs), Hr, rev_app_distr. cbn [rev].
    now rewrite <- app_assoc.
Qed.

(** ** The invariant of the registry *)

Lemma wf_registry_drop l1 x l2 :
  wf_registry (l1 ++ x :: l2) -> wf_registry (l1 ++ l2).
Proof.
  unfold wf_registry, ids. rewrite !map_app, !Forall_app. cbn [map].
  intros (Hnd & (Hi1 & Hi2) & (Hf1 & Hf2) & Hs).
  apply NoDup_remove_1 in Hnd. apply Forall_inv_tail in Hi2, Hf2.
  repeat split; auto.
  apply SS_app_iff in Hs. destruct Hs as (H1 & H2 & H12).
  apply StronglySorted_inv in H2. destruct H2 as [H2 _].
  apply SS_app_iff. repeat split; auto. intros a b Ha Hb. apply H12; auto.
  now right.
Qed.

Lemma wf_registry_removeLast id hs :
  wf_registry hs -> wf_registry (removeLast id hs).
Proof.
  intros Hwf. destruct (removeLast_cases id hs) as [[_ ->] | (l1 & x & l2 & -> & -> & _)].
  - exact Hwf.
  - now apply wf_registry_drop in Hwf.
Qed.

Lemma wf_registry_place hs x :
  wf_registry hs -> Id x <> "" -> Func x <> None ->
  wf_registry (sortStable (place hs x)).
Proof.
  intros (Hnd & Hi & Hf & _) Hx Hfx.
  assert (Hpre : NoDup (ids (place hs x)) /\
                 Forall (fun y => Id y <> "") (place hs x) /\
                 Forall (fun y => Func y <> None) (place hs x)).
  { destruct (place_cases hs x) as [[Hn ->] | (l1 & old & l2 & -> & -> & Hid & _)].
    - unfold ids. rewrite map_app, !Forall_app. cbn [map]. repeat split; auto.
      apply (Permutation_NoDup (l := Id x :: map Id hs)).
      + change (Id x :: map Id hs) with ([Id x] ++ map Id hs).
        apply Permutation_app_comm.
      + now constructor.
    - unfold ids in *. rewrite map_app, !Forall_app in *. cbn [map] in *.
      rewrite <- Hid. destruct Hi as [Hi1 Hi2], Hf as [Hf1 Hf2].
      apply Forall_inv_tail in Hi2, Hf2. repeat split; auto. }
  destruct Hpre as (Hnd' & Hi' & Hf').
  pose proof (sortStable_perm (place hs x)) as Hp. apply Permutation_sym in Hp.
  repeat split.
  - eapply Permutation_NoDup; [| exact Hnd']. unfold ids. now apply Permutation_map.
  - eapply Permutation_Forall; eassumption.
  - eapply Permutation_Forall; eassumption.
  - apply sortStable_sorted.
Qed.

Lemma Bind_wf fuel h handler r id h' r' :
  wf_registry (handlers h) ->
  Bind fuel h handler r = Some (id, h', r') ->
  wf_registry (handlers h').
Proof.
  intros Hwf HB. destruct handler as [x|]; [| cbn in HB; congruence].
  destruct (Func x) as [fn|] eqn:Efn.
  - assert (Hf : Func x <> None) by congruence.
    destruct (Bind_inv _ _ _ _ _ _ _ Hf HB) as (-> & Hid & _ & _).
    apply wf_registry_place; auto.
  - unfold Bind in HB. rewrite Efn in HB. congruence.
Qed.

Lemma reachable_wf h : reachable h -> wf_registry (handlers h).
Proof.
  induction 1 as [| fuel h handler r id h' r' _ IH HB | idl h _ IH | h _ _].
  - repeat split; constructor.
  - eapply Bind_wf; eassumption.
  - cbn [Unbind handlers]. revert IH. generalize (handlers h).
    induction idl as [|id idl IHl]; intros hs Hwf; cbn [fold_left]; auto.
    apply IHl. now apply wf_registry_removeLast.
  - repeat split; constructor.
Qed.

End RegistryFacts.

(** * Properties of [Bind], [Unbind] and [Length] *)

Section RegistryProperties.

Context {W : Type}.

Lemma SS_replace (l1 l2 : list (Handler W)) old x :
  Priority x = Priority old ->
  StronglySorted le_prio (l1 ++ old :: l2) ->
  StronglySorted le_prio (l1 ++ x :: l2).
Proof.
  intros Hp Hs. apply SS_app_iff in Hs. destruct Hs as (H1 & H2 & H12).
  apply StronglySorted_inv in H2. destruct H2 as [H2 Hold].
  apply SS_app_iff. split; [assumption |]. split.
  - constructor; [assumption |].
    eapply Forall_impl; [| exact Hold]. unfold le_prio. intros a Ha. lia.
  - intros a b Ha [<- | Hb].
    + specialize (H12 a old Ha (or_introl eq_refl)). unfold le_prio in *. lia.
    + apply H12; [assumption | now right].
Qed.

Lemma Bind_registers fuel (h : Hook W) x r id h' r' :
  Func x <> None ->
  Bind fuel h (Some x) r = Some (id, h', r') ->
  In id (ids (handlers h')).
Proof.
  intros Hf HB. destruct (Bind_inv _ _ _ _ _ _ _ Hf HB) as (-> & _ & _ & _).
  unfold ids. eapply Permutation_in.
  - apply Permutation_map, Permutation_sym, sortStable_perm.
  - apply in_map_iff. exists (setId id x). split; [reflexivity |].
    destruct (place_cases (handlers h) (setId id x))
      as [[_ ->] | (l1 & old & l2 & _ & -> & _ & _)];
      rewrite in_app_iff; right; now left.
Qed.

(** C6: after every [Bind], for any sequence of calls, the registry's
    sequence ascends in priority; and a [Bind] that takes effect leaves a
    stable re-sort of the sequence it inserted into or replaced in: the same
    handlers, and for every priority the handlers of that priority in the
    order they had just before the sort. *)
Theorem Bind_sorted_stable :
  (forall h : Hook W, reachable h -> StronglySorted le_prio (handlers h)) /\
  (forall fuel (h : Hook W) x r id h' r',
      Func x <> None ->
      Bind fuel h (Some x) r = Some (id, h', r') ->
      StronglySorted le_prio (handlers h') /\
      Permutation (handlers h') (place (handlers h) (setId id x)) /\
      forall p, filter (hasPrio p) (handlers h') =
                filter (hasPrio p) (place (handlers h) (setId id x))).
Proof.
  split.
  - intros h Hr. now apply reachable_wf in Hr as (_ & _ & _ & Hs).
  - intros fuel h x r id h' r' Hf HB.
    destruct (Bind_inv _ _ _ _ _ _ _ Hf HB) as (-> & _ & _ & _).
    split; [apply sortStable_sorted |].
    split; [apply sortStable_perm |].
    intros p. apply sortStable_stable.
Qed.

Lemma ids_filter (f : Handler W -> bool) (l : list (Handler W)) id :
  ~ In id (ids l) -> ~ In id (ids (filter f l)).
Proof.
  intros Hn Hc. apply Hn. unfold ids in *. apply in_map_iff in Hc.
  destruct Hc as (y & Hy & Hin). apply filter_In in Hin.
  apply in_map_iff. exists y. tauto.
Qed.

(** A sequence is cut at a handler in one way only when no other handler
    has its id. *)
Lemma split_at_unique (a b a' b' : list (Handler W)) x :
  ~ In (Id x) (ids a) -> ~ In (Id x) (ids a') ->
  a ++ x :: b = a' ++ x :: b' -> a = a' /\ b = b'.
Proof.
  revert a'. induction a as [|y a IH]; intros a' Hn Hn' H.
  - destruct a' as [|y' a']; cbn in H.
    + injection H as <-. auto.
    + injection H as <- _. exfalso. apply Hn'. now left.
  - destruct a' as [|y' a']; cbn in H.
    + injection H as -> _. exfalso. apply Hn. now left.
    + injection H as <- H. destruct (IH a') as [-> ->]; auto.
      * intros Hc. apply Hn. now right.
      * intros Hc. apply Hn'. now right.
Qed.

(** In the stable re-sort of a sequence that ascends but for one handler,
    only that handler moves. *)
Lemma stable_move (l1 l2 S : list (Handler W)) x :
  NoDup (ids (l1 ++ x :: l2)) ->
  StronglySorted le_prio (l1 ++ l2) ->
  StronglySorted le_prio S ->
  Permutation S (l1 ++ x :: l2) ->
  (forall p, filter (hasPrio p) S = filter (hasPrio p) (l1 ++ x :: l2)) ->
  exists a b, S = a ++ x :: b /\ a ++ b = l1 ++ l2.
Proof.
  intros Hnd Hs12 HsS Hperm Hf.
  assert (Hin : In x S).
  { eapply Permutation_in; [apply Permutation_sym, Hperm |].
    rewrite in_app_iff. right. now left. }
  destruct (in_split _ _ Hin) as (a & b & ->). exists a, b.
  split; [reflexivity |].
  assert (HndS : NoDup (ids (a ++ x :: b))).
  { eapply Permutation_NoDup; [| exact Hnd]. unfold ids.
    apply Permutation_map, Permutation_sym, Hperm. }
  assert (Hx12 : ~ In (Id x) (ids l1) /\ ~ In (Id x) (ids l2)).
  { unfold ids in *. rewrite map_app in Hnd. cbn [map] in Hnd.
    apply NoDup_remove_2 in Hnd. rewrite in_app_iff in Hnd. tauto. }
  assert (Hxab : ~ In (Id x) (ids a) /\ ~ In (Id x) (ids b)).
  { unfold ids in *. rewrite map_app in HndS. cbn [map] in HndS.
    apply NoDup_remove_2 in HndS. rewrite in_app_iff in HndS. tauto. }
  apply stable_sorted_unique.
  - apply SS_app_iff in HsS. destruct HsS as (Ha & Hb & Hab).
    apply StronglySorted_inv in Hb. destruct Hb as [Hb _].
    apply SS_app_iff. repeat split; auto.
    intros y z Hy Hz. apply Hab; [assumption | now right].
  - exact Hs12.
  - intros p. specialize (Hf p). rewrite !filter_app in *. cbn [filter] in Hf.
    destruct (hasPrio p x); [| exact Hf].
    apply split_at_unique in Hf.
    + destruct Hf as [-> ->]. reflexivity.
    + now apply ids_filter.
    + now apply ids_filter.
Qed.

(** C7: binding a handler whose id is the id of a registered handler
    replaces that entry in its slot: the id is returned and [Length] is
    unchanged.  The registry afterwards is the stable re-sort of the
    sequence with the new handler in the old one's place: it ascends in
    priority, holds the same handlers, keeps for every priority the order
    that sequence had, and differs from it only in where the new handler
    stands; with an unchanged priority the new handler sits exactly where
    the old one sat. *)
Theorem Bind_replaces_in_slot fuel (h : Hook W) x old r :
  reachable h ->
  In old (handlers h) ->
  Id old = Id x ->
  Func x <> None ->
  exists l1 l2 h',
    handlers h = l1 ++ old :: l2 /\
    Bind fuel h (Some x) r = Some (Id x, h', r) /\
    handlers h' = sortStable (l1 ++ x :: l2) /\
    StronglySorted le_prio (handlers h') /\
    Permutation (handlers h') (l1 ++ x :: l2) /\
    (forall p, filter (hasPrio p) (handlers h')
               = filter (hasPrio p) (l1 ++ x :: l2)) /\
    (exists a b, handlers h' = a ++ x :: b /\ a ++ b = l1 ++ l2) /\
    Length h' = Length h /\
    (Priority x = Priority old -> handlers h' = l1 ++ x :: l2).
Proof.
  intros Hr Hin Hid Hf. apply reachable_wf in Hr.
  destruct Hr as (Hnd & Hne & _ & Hs).
  destruct (in_split _ _ Hin) as (l1 & l2 & Hsplit).
  exists l1, l2, (mkHook (sortStable (l1 ++ x :: l2))).
  rewrite Hsplit in Hnd, Hne, Hs.
  assert (Hx : Id x <> "").
  { rewrite Forall_app in Hne. destruct Hne as [_ Hne].
    apply Forall_inv in Hne. congruence. }
  assert (Hndx : NoDup (ids (l1 ++ x :: l2))).
  { unfold ids in *. rewrite map_app in *. cbn [map] in *. now rewrite <- Hid. }
  assert (Hn1 : ~ In (Id x) (ids l1)).
  { unfold ids in *. rewrite map_app in Hndx. cbn [map] in Hndx.
    apply NoDup_remove_2 in Hndx.
    intros Hc. apply Hndx. rewrite in_app_iff. now left. }
  assert (Hs12 : StronglySorted le_prio (l1 ++ l2)).
  { apply SS_app_iff in Hs. destruct Hs as (H1 & H2 & H12).
    apply StronglySorted_inv in H2. destruct H2 as [H2 _].
    apply SS_app_iff. repeat split; auto.
    intros y z Hy Hz. apply H12; [assumption | now right]. }
  split; [exact Hsplit |]. cbn [handlers].
  split; [| split; [| split; [| split; [| split; [| split; [| split]]]]]].
  - unfold Bind. destruct (Func x); [| congruence].
    apply String.eqb_neq in Hx. rewrite Hx.
    unfold place. rewrite Hsplit, replaceExisting_first by assumption.
    reflexivity.
  - reflexivity.
  - apply sortStable_sorted.
  - apply sortStable_perm.
  - intros p. apply sortStable_stable.
  - apply stable_move; auto.
    + apply sortStable_sorted.
    + apply sortStable_perm.
    + intros p. apply sortStable_stable.
  - unfold Length. cbn [handlers]. rewrite sortStable_length, Hsplit.
    rewrite !length_app. reflexivity.
  - intros Hp. apply sortStable_id.
    eapply SS_replace; eassumption.
Qed.

(** C8: no two handlers of a reachable registry share an id; a handler bound
    with an empty id gets a generated, non-empty id that no registered
    handler has; two handlers bound one after the other with empty ids get
    distinct ids; and the call returns as soon as one of the drawn
    candidates is not taken. *)
Theorem ids_unique :
  (forall h : Hook W, reachable h -> NoDup (ids (handlers h))) /\
  (forall fuel (h : Hook W) x r id h' r',
      Func x <> None -> Id x = "" ->
      Bind fuel h (Some x) r = Some (id, h', r') ->
      id <> "" /\ ~ In id (ids (handlers h)) /\ In id (ids (handlers h'))) /\
  (forall fuel1 fuel2 (h : Hook W) x1 x2 r ra id1 id2 h1 h2 r1 r2,
      Func x1 <> None -> Id x1 = "" ->
      Func x2 <> None -> Id x2 = "" ->
      Bind fuel1 h (Some x1) r = Some (id1, h1, r1) ->
      Bind fuel2 h1 (Some x2) ra = Some (id2, h2, r2) ->
      id1 <> id2) /\
  (forall n fuel (h : Hook W) x r,
      Func x <> None -> Id x = "" ->
      n < fuel ->
      ~ In (fst (regenerate (S n) "" r)) (ids (handlers h)) ->
      exists id h' r', Bind fuel h (Some x) r = Some (id, h', r')).
Proof.
  split; [| split; [| split]].
  - intros h Hr. now apply reachable_wf in Hr as (Hnd & _).
  - intros fuel h x r id h' r' Hf Hx HB.
    pose proof (Bind_registers _ _ _ _ _ _ _ Hf HB) as Hin.
    destruct (Bind_inv _ _ _ _ _ _ _ Hf HB) as (_ & Hid & _ & Hfresh).
    auto.
  - intros fuel1 fuel2 h x1 x2 r ra id1 id2 h1 h2 r1 r2 Hf1 Hx1 Hf2 Hx2 HB1 HB2.
    pose proof (Bind_registers _ _ _ _ _ _ _ Hf1 HB1) as Hin.
    destruct (Bind_inv _ _ _ _ _ _ _ Hf2 HB2) as (_ & _ & _ & Hfresh).
    intros <-. now apply Hfresh.
  - intros n fuel h x r Hf Hx Hlt Hfresh. unfold Bind.
    destruct (Func x); [| congruence].
    apply String.eqb_eq in Hx. rewrite Hx.
    cbn [regenerate] in Hfresh.
    destruct (generateHookId r) as [id0 r0].
    destruct (DUPLICATE_CHECK_returns n _ _ _ fuel Hlt Hfresh) as ([id r'] & ->).
    eauto.
Qed.

(** C9: binding a nil handler or a handler without a function returns the
    empty id and changes neither the registry nor the random source, and
    unbinding ids that no registered handler has leaves the registry as it
    is. *)
Theorem silent_noops :
  (forall fuel (h : Hook W) r, Bind fuel h None r = Some ("", h, r)) /\
  (forall fuel (h : Hook W) x r,
      Func x = None -> Bind fuel h (Some x) r = Some ("", h, r)) /\
  (forall (h : Hook W) id,
      ~ In id (ids (handlers h)) -> Unbind [id] h = h) /\
  (forall (h : Hook W) idl,
      (forall id, In id idl -> ~ In id (ids (handlers h))) ->
      Unbind idl h = h /\ Length (Unbind idl h) = Length h).
Proof.
  assert (HU : forall (h : Hook W) idl,
             (forall id, In id idl -> ~ In id (ids (handlers h))) ->
             Unbind idl h = h).
  { intros [hs] idl. unfold Unbind. cbn [handlers].
    induction idl as [|id idl IH]; intros Hn; cbn [fold_left]; [reflexivity |].
    destruct (removeLast_cases id hs) as [[_ ->] | (l1 & x & l2 & -> & _ & Hx)].
    - apply IH. intros id' Hid'. apply Hn. now right.
    - exfalso. apply (Hn id (or_introl eq_refl)).
      unfold ids. rewrite map_app, in_app_iff. right. now left. }
  split; [reflexivity |]. split; [| split].
  - intros fuel h x r Hf. unfold Bind. now rewrite Hf.
  - intros h id Hn. apply HU. intros id' [<- | []]. exact Hn.
  - intros h idl Hn. rewrite (HU h idl Hn). split; reflexivity.
Qed.

End RegistryProperties.

(** * Facts about the continuation chain *)

Section PipelineFacts.

Context {W : Type}.

Implicit Types (s : State W) (p fn : HandlerFunc W).
Implicit Types (hs pre rest : list (option (HandlerFunc W))).

Lemma setWorld_self s : setWorld (world s) s = s.
Proof. now destruct s. Qed.

Lemma exec_CallNext_Ret call s :
  exec call (CallNext (fun e => Ret e)) s = EventNext call s.
Proof. cbn [exec]. now destruct (EventNext call s). Qed.

(** A handler that does not call [Next] only changes the handlers' state. *)
Lemma exec_vetoes call e p s :
  vetoes e p -> exists w, exec call p s = Done e (setWorld w s).
Proof.
  intros H. revert s. induction H as [| k _ IH | w k _ IH]; intros s; cbn [exec].
  - exists (world s). now rewrite setWorld_self.
  - apply IH.
  - destruct (IH (setWorld w s)) as [w' Hw']. exists w'. exact Hw'.
Qed.

(** With no continuation installed every [Next] is a no-op. *)
Lemma exec_nil call p s :
  ev_next s = nil_func -> exists e w, exec call p s = Done e (setWorld w s).
Proof.
  revert s. induction p as [e | k IH | k IH | w k IH]; intros s Hs; cbn [exec].
  - exists e, (world s). now rewrite setWorld_self.
  - unfold EventNext. rewrite Hs. now apply IH.
  - now apply IH.
  - destruct (IH (setWorld w s) Hs) as (e & w' & Hw'). now exists e, w'.
Qed.

(** ** What the loop of [Trigger] builds *)

Lemma depth_chainTail hs k : depth (chainTail hs k) = k.
Proof. induction k as [|k IH]; cbn; congruence. Qed.

Lemma buildChain_spec hs i s :
  i <= List.length hs ->
  ev_next s = chainTail hs (List.length hs - i) ->
  buildChain hs i s = setNextFunc (chainTail hs (List.length hs)) s.
Proof.
  revert s. induction i as [|i IH]; intros s Hle Hs; cbn [buildChain].
  - rewrite Nat.sub_0_r in Hs. rewrite <- Hs. now destruct s.
  - rewrite IH; [reflexivity | lia |].
    cbn [setNextFunc ev_next]. unfold nextFunc. rewrite Hs.
    replace (List.length hs - i) with (S (List.length hs - S i)) by lia.
    cbn [chainTail]. f_equal. lia.
Qed.

Lemma prepare_spec s oneOff :
  prepare s oneOff =
  setNextFunc (chainTail (chainOf (st_hook s) oneOff)
                         (List.length (chainOf (st_hook s) oneOff))) s.
Proof.
  unfold prepare. cbv zeta. rewrite buildChain_spec.
  - reflexivity.
  - cbn [setNextFunc st_hook]. lia.
  - cbn [setNextFunc st_hook ev_next]. now rewrite Nat.sub_diag.
Qed.

Lemma nth_error_split {A : Type} (l1 : list A) a l2 :
  nth_error (l1 ++ a :: l2) (List.length (l1 ++ a :: l2) - S (List.length l2))
  = Some a.
Proof.
  rewrite length_app. cbn [List.length].
  replace (List.length l1 + S (List.length l2) - S (List.length l2))
    with (List.length l1) by lia.
  rewrite nth_error_app2 by lia. now rewrite Nat.sub_diag.
Qed.

(** One call of the installed continuation: restore [old], call
    [handlers[i]]. *)
Lemma EventNext_cons fuel hs pre o rest s :
  hs = pre ++ o :: rest ->
  ev_next s = chainTail hs (S (List.length rest)) ->
  EventNext (invoke (S fuel)) s =
  match o with
  | Some fn =>
      exec (invoke fuel) fn
           (record fn (setNextFunc (chainTail hs (List.length rest)) s))
  | None => Panic
  end.
Proof.
  intros -> Hs. unfold EventNext. rewrite Hs. cbn [chainTail invoke].
  rewrite nth_error_split. now destruct o.
Qed.

Lemma EventNext_nil call s : ev_next s = nil_func -> EventNext call s = Done None s.
Proof. intros Hs. unfold EventNext. now rewrite Hs. Qed.

(** ** Handlers run in chain order, each at most once *)

Lemma exec_chain hs K :
  forall p pre rest s fuel,
    hs = pre ++ rest ->
    List.length rest <= K ->
    List.length rest <= fuel ->
    ev_next s = chainTail hs (List.length rest) ->
    chain_post hs rest s (exec (invoke fuel) p s).
Proof.
  induction K as [K IHK] using (well_founded_induction lt_wf).
  induction p as [e | k IHp | k IHp | w k IHp];
    intros pre rest s fuel Hhs HK Hfuel Hs; cbn [exec].
  - exists [], rest. cbn. now rewrite app_nil_r.
  - destruct rest as [|o rest1].
    + rewrite EventNext_nil by exact Hs. now apply IHp with (pre := pre).
    + cbn [List.length] in *. destruct fuel as [|fuel]; [lia |].
      rewrite (EventNext_cons fuel hs pre o rest1 s Hhs Hs).
      destruct o as [fn|]; [| cbn; rewrite Hhs; apply in_elt].
      set (s1 := record fn (setNextFunc (chainTail hs (List.length rest1)) s)).
      assert (H1 : chain_post hs rest1 s1 (exec (invoke fuel) fn s1)).
      { apply IHK with (y := List.length rest1) (pre := pre ++ [Some fn]);
          try lia; [| reflexivity].
        now rewrite <- app_assoc. }
      destruct (exec (invoke fuel) fn s1) as [e1 s2 | |]; cbn in H1; auto.
      destruct H1 as (d1 & rest2 & Hr & Hn & Hh & Hi).
      assert (Hlen : List.length rest2 <= List.length rest1).
      { rewrite Hr, length_app. lia. }
      assert (H2 : chain_post hs rest2 s2 (exec (invoke (S fuel)) (k e1) s2)).
      { apply IHp with (pre := pre ++ Some fn :: map Some d1); try lia; auto.
        rewrite Hhs, Hr, <- app_assoc. reflexivity. }
      destruct (exec (invoke (S fuel)) (k e1) s2) as [e2 s3 | |]; cbn in H2; auto.
      destruct H2 as (d2 & rest3 & Hr2 & Hn2 & Hh2 & Hi2).
      exists (fn :: d1 ++ d2), rest3. repeat split.
      * rewrite Hr, Hr2. cbn [map app]. now rewrite map_app, <- app_assoc.
      * exact Hn2.
      * rewrite Hh2, Hh. reflexivity.
      * rewrite Hi2, Hi. subst s1. cbn [record invoked setNextFunc].
        rewrite <- !app_assoc. reflexivity.
  - now apply IHp with (pre := pre).
  - exact (IHp pre rest (setWorld w s) fuel Hhs HK Hfuel Hs).
Qed.

(** Handlers that all call [Next] let the chain run to its end. *)
Lemma exec_chain_all hs K :
  forall p pre rest s fuel,
    hs = pre ++ rest ->
    List.length rest <= K ->
    List.length rest <= fuel ->
    ev_next s = chainTail hs (List.length rest) ->
    Forall (fun o => exists fn, o = Some fn /\ callsNext fn) rest ->
    callsNext p ->
    match exec (invoke fuel) p s with
    | Done _ s' => ev_next s' = nil_func
    | _ => True
    end.
Proof.
  induction K as [K IHK] using (well_founded_induction lt_wf).
  intros p pre rest s fuel Hhs HK Hfuel Hs Hall Hc. revert s Hs.
  induction Hc as [k | k _ IH | w k _ IH]; intros s Hs; cbn [exec].
  - destruct rest as [|o rest1].
    + rewrite EventNext_nil by exact Hs.
      destruct (exec_nil (invoke fuel) (k None) s Hs) as (e & w & ->). exact Hs.
    + cbn [List.length] in *. destruct fuel as [|fuel]; [lia |].
      rewrite (EventNext_cons fuel hs pre o rest1 s Hhs Hs).
      apply Forall_inv in Hall as Ho. apply Forall_inv_tail in Hall.
      destruct Ho as (fn & -> & Hfn).
      set (s1 := record fn (setNextFunc (chainTail hs (List.length rest1)) s)).
      assert (H1 : match exec (invoke fuel) fn s1 with
                   | Done _ s' => ev_next s' = nil_func
                   | _ => True
                   end).
      { apply IHK with (y := List.length rest1) (pre := pre ++ [Some fn])
                       (rest := rest1); try lia; auto.
        now rewrite <- app_assoc. }
      destruct (exec (invoke fuel) fn s1) as [e1 s2 | |]; auto.
      destruct (exec_nil (invoke (S fuel)) (k e1) s2 H1) as (e & w & ->).
      exact H1.
  - now apply IH.
  - exact (IH (setWorld w s) Hs).
Qed.

(** ** The evaluation bound of [Next] is enough *)

Lemma invoke_closure fuel (old : NextFunc W) hs i s :
  invoke (S fuel) (closure old hs i) s =
  match nth_error hs i with
  | Some (Some fn) => exec (invoke fuel) fn (record fn (setNextFunc old s))
  | Some None => Panic
  | None => Panic
  end.
Proof. reflexivity. Qed.

Lemma exec_fuel d :
  forall p s fuel,
    depth (ev_next s) <= d -> d <= fuel ->
    exec (invoke fuel) p s = exec (invoke d) p s /\
    match exec (invoke d) p s with
    | Done _ s' => depth (ev_next s') <= depth (ev_next s)
    | Panic => True
    | OutOfFuel => False
    end.
Proof.
  induction d as [d IHd] using (well_founded_induction lt_wf).
  induction p as [e | k IHp | k IHp | w k IHp]; intros s fuel Hd Hfuel; cbn [exec].
  - split; [reflexivity | lia].
  - unfold EventNext. destruct (ev_next s) as [|old hs0 i] eqn:Es.
    + destruct (IHp None s fuel) as [Heq Hb]; [rewrite Es; cbn; lia | lia |].
      rewrite Es in Hb. now split.
    + cbn [depth] in Hd. destruct d as [|d']; [lia |].
      destruct fuel as [|fuel']; [lia |]. rewrite !invoke_closure.
      destruct (nth_error hs0 i) as [[fn|]|]; try (split; [reflexivity | exact I]).
      set (s1 := record fn (setNextFunc old s)).
      destruct (IHd d' (Nat.lt_succ_diag_r d') fn s1 fuel') as [Heq Hb];
        [subst s1; cbn; lia | lia |].
      rewrite Heq.
      destruct (exec (invoke d') fn s1) as [e1 s2 | |];
        try (split; [reflexivity | exact Hb]).
      assert (Hs1 : depth (ev_next s1) = depth old) by reflexivity.
      destruct (IHp e1 s2 (S fuel')) as [Heq2 Hb2]; [lia | lia |].
      split; [exact Heq2 |].
      destruct (exec (invoke (S d')) (k e1) s2); auto. cbn [depth]. lia.
  - now apply IHp.
  - exact (IHp (setWorld w s) fuel Hd Hfuel).
Qed.

(** [Next] always returns or panics, and a larger bound changes nothing. *)
Lemma Next_fuel s :
  Next s <> OutOfFuel /\
  forall fuel, depth (ev_next s) <= fuel -> NextF fuel s = Next s.
Proof.
  unfold Next, NextF. split.
  - rewrite <- exec_CallNext_Ret.
    destruct (exec_fuel (depth (ev_next s)) (CallNext (fun e => Ret e)) s
                        (depth (ev_next s)) (le_n _) (le_n _)) as [_ Hb].
    intros Hc. rewrite Hc in Hb. exact Hb.
  - intros fuel Hfuel. rewrite <- !exec_CallNext_Ret.
    now apply exec_fuel.
Qed.

(** ** [Trigger] as a whole *)

Lemma Trigger_chain s oneOff :
  chain_post (chainOf (st_hook s) oneOff) (chainOf (st_hook s) oneOff) s
             (Trigger s oneOff).
Proof.
  unfold Trigger, Next, NextF. rewrite prepare_spec.
  cbn [ev_next setNextFunc]. rewrite depth_chainTail.
  rewrite <- exec_CallNext_Ret.
  set (hs := chainOf (st_hook s) oneOff).
  exact (exec_chain hs (List.length hs) (CallNext (fun e => Ret e)) [] hs
                    (setNextFunc (chainTail hs (List.length hs)) s)
                    (List.length hs) eq_refl (le_n _) (le_n _) eq_refl).
Qed.

(** Without nil functions in the chain [Trigger] returns, having run a
    prefix of the chain, in order. *)
Lemma Trigger_returns s oneOff :
  Forall (fun o => o <> None) (chainOf (st_hook s) oneOff) ->
  exists e s' d rest,
    Trigger s oneOff = Done e s' /\
    chainOf (st_hook s) oneOff = map Some d ++ rest /\
    ev_next s' = chainTail (chainOf (st_hook s) oneOff) (List.length rest) /\
    st_hook s' = st_hook s /\
    invoked s' = invoked s ++ d.
Proof.
  intros Hall. pose proof (Trigger_chain s oneOff) as H.
  destruct (Trigger s oneOff) as [e s' | |]; cbn in H.
  - destruct H as (d & rest & H1 & H2 & H3 & H4). now exists e, s', d, rest.
  - rewrite Forall_forall in Hall. now apply Hall in H.
  - contradiction.
Qed.

(** When every function of the chain calls [Next], all of them run. *)
Lemma Trigger_all s oneOff :
  Forall (fun o => exists fn, o = Some fn /\ callsNext fn)
         (chainOf (st_hook s) oneOff) ->
  exists e s' d,
    Trigger s oneOff = Done e s' /\
    chainOf (st_hook s) oneOff = map Some d /\
    ev_next s' = nil_func /\
    st_hook s' = st_hook s /\
    invoked s' = invoked s ++ d.
Proof.
  intros Hall.
  assert (Hnn : Forall (fun o => o <> None) (chainOf (st_hook s) oneOff)).
  { eapply Forall_impl; [| exact Hall]. intros o (fn & -> & _). discriminate. }
  destruct (Trigger_returns s oneOff Hnn) as (e & s' & d & rest & HT & Hd & Hn & Hh & Hi).
  set (hs := chainOf (st_hook s) oneOff) in *.
  pose proof (exec_chain_all hs (List.length hs) (CallNext (fun e => Ret e)) [] hs
                (setNextFunc (chainTail hs (List.length hs)) s)
                (List.length hs) eq_refl (le_n _) (le_n _) eq_refl Hall
                (callsNext_Next _ _)) as Hend.
  rewrite exec_CallNext_Ret in Hend.
  pose proof HT as HT'.
  unfold Trigger, Next, NextF in HT'. rewrite prepare_spec in HT'.
  cbn [ev_next setNextFunc] in HT'. rewrite depth_chainTail in HT'.
  fold hs in HT'. rewrite HT' in Hend. rewrite Hend in Hn.
  destruct rest as [|o rest]; [| discriminate].
  rewrite app_nil_r in Hd. now exists e, s', d.
Qed.

(** ** Forwarding, vetoing and swallowing handlers *)

Section Forwarding.

(** A property of what [Next] returned and of the objects then, that no
    handler can break by writing its own state. *)
Variable Q : error -> State W -> Prop.
Hypothesis Q_world : forall e s w, Q e s -> Q e (setWorld w s).

Lemma exec_forwards call p :
  forwards p ->
  forall s,
    (forall w, exists e s2, EventNext call (setWorld w s) = Done e s2 /\ Q e s2) ->
    exists e s', exec call p s = Done e s' /\ Q e s'.
Proof.
  intros Hf. induction Hf as [k Hk | k _ IH | w k _ IH]; intros s HN; cbn [exec].
  - destruct (HN (world s)) as (e & s2 & HE & HQ). rewrite setWorld_self in HE.
    rewrite HE. destruct (exec_vetoes call e (k e) s2 (Hk e)) as [w ->].
    exists e, (setWorld w s2). split; [reflexivity | now apply Q_world].
  - apply IH. exact HN.
  - apply IH. intros w'. exact (HN w').
Qed.

Lemma exec_swallows call p :
  swallows p ->
  forall s,
    (forall w, exists e s2, EventNext call (setWorld w s) = Done e s2 /\ Q e s2) ->
    exists e s', exec call p s = Done None s' /\ Q e s'.
Proof.
  intros Hf. induction Hf as [k Hk | k _ IH | w k _ IH]; intros s HN; cbn [exec].
  - destruct (HN (world s)) as (e & s2 & HE & HQ). rewrite setWorld_self in HE.
    rewrite HE. destruct (exec_vetoes call None (k e) s2 (Hk e)) as [w ->].
    exists e, (setWorld w s2). split; [reflexivity | now apply Q_world].
  - apply IH. exact HN.
  - apply IH. intros w'. exact (HN w').
Qed.

(** Forwarding handlers hand down the call and hand up the result. *)
Lemma forwards_chain hs rest :
  forall fw pre s fuel,
    hs = pre ++ map Some fw ++ rest ->
    Forall forwards fw ->
    List.length fw + List.length rest <= fuel ->
    ev_next s = chainTail hs (List.length fw + List.length rest) ->
    (forall fuel' s2,
        List.length rest <= fuel' ->
        ev_next s2 = chainTail hs (List.length rest) ->
        st_hook s2 = st_hook s ->
        invoked s2 = invoked s ++ fw ->
        exists e s2', EventNext (invoke fuel') s2 = Done e s2' /\ Q e s2') ->
    exists e s', EventNext (invoke fuel) s = Done e s' /\ Q e s'.
Proof.
  induction fw as [|p fw IH]; intros pre s fuel Hhs Hfw Hfuel Hs HR.
  - apply HR; auto. now rewrite app_nil_r.
  - cbn [List.length plus map app] in *. destruct fuel as [|fuel]; [lia |].
    assert (Hlen : List.length (map Some fw ++ rest)
                   = List.length fw + List.length rest).
    { now rewrite length_app, length_map. }
    rewrite <- Hlen in Hs.
    rewrite (EventNext_cons fuel hs pre (Some p) (map Some fw ++ rest) s Hhs Hs).
    apply Forall_inv in Hfw as Hp. apply Forall_inv_tail in Hfw.
    apply exec_forwards; [exact Hp |]. intros w.
    apply IH with (pre := pre ++ [Some p]); auto.
    + now rewrite <- app_assoc.
    + lia.
    + cbn [ev_next setWorld record setNextFunc]. now rewrite Hlen.
    + intros fuel' s2 Hf' Hn2 Hh2 Hi2. apply HR; auto.
      rewrite Hi2. cbn [invoked setWorld record setNextFunc].
      now rewrite <- app_assoc.
Qed.

(** The same from [Trigger]. *)
Lemma Trigger_forwards s oneOff fw rest :
  chainOf (st_hook s) oneOff = map Some fw ++ rest ->
  Forall forwards fw ->
  (forall fuel' s2,
      List.length rest <= fuel' ->
      ev_next s2 = chainTail (chainOf (st_hook s) oneOff) (List.length rest) ->
      st_hook s2 = st_hook s ->
      invoked s2 = invoked s ++ fw ->
      exists e s2', EventNext (invoke fuel') s2 = Done e s2' /\ Q e s2') ->
  exists e s', Trigger s oneOff = Done e s' /\ Q e s'.
Proof.
  intros Hhs Hfw HR. unfold Trigger, Next, NextF. rewrite prepare_spec.
  cbn [ev_next setNextFunc]. rewrite depth_chainTail.
  set (hs := chainOf (st_hook s) oneOff) in *.
  assert (Hlen : List.length hs = List.length fw + List.length rest).
  { now rewrite Hhs, length_app, length_map. }
  rewrite Hlen.
  apply forwards_chain with (hs := hs) (rest := rest) (fw := fw) (pre := []);
    auto.
Qed.

End Forwarding.

(** A vetoing handler returns its error with the pointer left on what
    follows it. *)
Lemma EventNext_vetoes hs pre v post e s fuel :
  hs = pre ++ Some v :: post ->
  vetoes e v ->
  ev_next s = chainTail hs (S (List.length post)) ->
  S (List.length post) <= fuel ->
  exists w,
    EventNext (invoke fuel) s =
    Done e (setWorld w (record v (setNextFunc (chainTail hs (List.length post)) s))).
Proof.
  intros Hhs Hv Hs Hfuel. destruct fuel as [|fuel]; [lia |].
  rewrite (EventNext_cons fuel hs pre (Some v) post s Hhs Hs).
  now apply exec_vetoes.
Qed.

End PipelineFacts.

(** * Properties of [Trigger] *)

Section TriggerProperties.

Lemma sortStable_app_l {W : Type} (a b : list (Handler W)) :
  sortStable (sortStable a ++ b) = sortStable (a ++ b).
Proof.
  unfold sortStable at 1 3. rewrite !fold_left_app.
  change (fold_left insertStable (sortStable a) [])
    with (sortStable (sortStable a)).
  now rewrite (sortStable_id _ (sortStable_sorted a)).
Qed.

(** Binding handlers that replace nothing leaves the stable sort of what
    was bound, in the order of binding. *)
Lemma bindAll_sorted {W : Type} (xs : list (Handler W)) :
  forall fuel h0 r idl h r',
    bindAll fuel h0 xs r = Some (idl, h, r') ->
    Forall (fun x => Func x <> None) xs ->
    StronglySorted le_prio (handlers h0) ->
    NoDup (ids (handlers h0) ++ idl) ->
    handlers h = sortStable (handlers h0 ++ stored idl xs).
Proof.
  induction xs as [|x xs IH]; intros fuel h0 r idl h r' HB Hf Hs Hnd;
    cbn [bindAll] in HB.
  - injection HB as <- <- <-. cbn. rewrite app_nil_r. symmetry.
    now apply sortStable_id.
  - destruct (Bind fuel h0 (Some x) r) as [[[id h1] r1]|] eqn:E1; [| discriminate].
    destruct (bindAll fuel h1 xs r1) as [[[idl' h2] r2]|] eqn:E2; [| discriminate].
    injection HB as <- <- <-.
    apply Forall_inv in Hf as Hx. apply Forall_inv_tail in Hf.
    destruct (Bind_inv _ _ _ _ _ _ _ Hx E1) as (Hh1 & _ & _ & _).
    assert (Hfresh : ~ In id (ids (handlers h0))).
    { apply NoDup_remove_2 in Hnd. intros Hc. apply Hnd.
      rewrite in_app_iff. now left. }
    rewrite place_fresh in Hh1 by exact Hfresh.
    rewrite (IH fuel h1 r1 idl' h2 r2 E2 Hf).
    + rewrite Hh1, sortStable_app_l, <- app_assoc. reflexivity.
    + rewrite Hh1. apply sortStable_sorted.
    + eapply Permutation_NoDup; [| exact Hnd].
      rewrite Hh1. unfold ids.
      rewrite (Permutation_map Id (sortStable_perm (handlers h0 ++ [setId id x]))).
      rewrite map_app, <- app_assoc. reflexivity.
Qed.

Lemma registered_chain {W : Type} (h : Hook W) :
  Forall (fun x => Func x <> None) (handlers h) ->
  Forall (fun o => o <> None) (chainOf h []).
Proof.
  intros H. unfold chainOf. rewrite app_nil_r. now apply Forall_map.
Qed.

(** C1: the registry with H1 (priority 0), H2 (priority -5) and H3
    (priority 0) bound in this order, each handler appending its name to
    the log and returning [e.Next()], is triggered with the log
    [H2; H1; H3] as a result.  In general: handlers bound one after the
    other (none replacing another) are kept in ascending priority, equal
    priorities in the order of binding, and [Trigger] calls the registered
    functions in the registry's order, each at most once, all of them when
    every one calls [Next]. *)
Theorem Trigger_priority_order :
  (forall fuel r,
      bindAll fuel (mkHook []) [H1; H2; H3] r
      = Some (["h1"; "h2"; "h3"], mkHook [H2; H1; H3], r)) /\
  (exists s',
      Trigger (newEvent (mkHook [H2; H1; H3]) []) [] = Done None s' /\
      world s' = ["H2"; "H1"; "H3"]) /\
  (forall (W : Type) fuel (xs : list (Handler W)) r idl h r',
      bindAll fuel (mkHook []) xs r = Some (idl, h, r') ->
      Forall (fun x => Func x <> None) xs ->
      NoDup idl ->
      handlers h = sortStable (stored idl xs) /\
      StronglySorted le_prio (handlers h) /\
      forall p, filter (hasPrio p) (handlers h)
                = filter (hasPrio p) (stored idl xs)) /\
  (forall (W : Type) (s : State W),
      Forall (fun x => Func x <> None) (handlers (st_hook s)) ->
      exists e s' d rest,
        Trigger s [] = Done e s' /\
        map Func (handlers (st_hook s)) = map Some d ++ rest /\
        invoked s' = invoked s ++ d) /\
  (forall (W : Type) (s : State W),
      Forall (fun x => exists fn, Func x = Some fn /\ callsNext fn)
             (handlers (st_hook s)) ->
      exists e s' d,
        Trigger s [] = Done e s' /\
        map Func (handlers (st_hook s)) = map Some d /\
        invoked s' = invoked s ++ d).
Proof.
  split; [reflexivity |].
  split; [eexists; split; reflexivity |].
  split; [| split].
  - intros W fuel xs r idl h r' HB Hf Hnd.
    assert (Hh : handlers h = sortStable (stored idl xs)).
    { apply (bindAll_sorted xs fuel (mkHook []) r idl h r' HB Hf).
      - constructor.
      - exact Hnd. }
    rewrite Hh. split; [reflexivity |].
    split; [apply sortStable_sorted | intros p; apply sortStable_stable].
  - intros W s Hf.
    destruct (Trigger_returns s [] (registered_chain _ Hf))
      as (e & s' & d & rest & HT & Hd & _ & _ & Hi).
    unfold chainOf in Hd. rewrite app_nil_r in Hd.
    now exists e, s', d, rest.
  - intros W s Hf.
    destruct (Trigger_all s []) as (e & s' & d & HT & Hd & _ & _ & Hi).
    + unfold chainOf. rewrite app_nil_r. now apply Forall_map.
    + unfold chainOf in Hd. rewrite app_nil_r in Hd. now exists e, s', d.
Qed.

(** C2: [Trigger] leaves, before its final [event.Next()], the continuation
    of the whole chain installed; the continuation for index [i] is the
    closure over the continuation for the entries after [i], the last one
    over nil; invoking it restores that captured continuation and then
    calls entry [i] on the event; and [Next] on an event without a
    continuation returns nil and changes nothing.  The evaluation bound is
    never met, and any bound from the length of the chain on gives the same
    result. *)
Theorem Trigger_builds_chain (W : Type) (s : State W) oneOff :
  let hs := chainOf (st_hook s) oneOff in
  Trigger s oneOff = Next (prepare s oneOff) /\
  prepare s oneOff = setNextFunc (chainTail hs (List.length hs)) s /\
  (forall i, i < List.length hs ->
     chainTail hs (List.length hs - i)
     = closure (chainTail hs (List.length hs - S i)) hs i) /\
  chainTail hs 0 = nil_func /\
  (forall i fn fuel (s0 : State W),
     nth_error hs i = Some (Some fn) ->
     ev_next s0 = chainTail hs (List.length hs - i) ->
     NextF (S fuel) s0
     = exec (invoke fuel) fn
            (record fn
               (setNextFunc (chainTail hs (List.length hs - S i)) s0))) /\
  (forall s0 : State W,
     ev_next s0 = nil_func ->
     Next s0 = Done None s0 /\ forall fuel, NextF fuel s0 = Done None s0) /\
  Trigger s oneOff <> OutOfFuel /\
  (forall fuel, List.length hs <= fuel ->
     TriggerF fuel s oneOff = Trigger s oneOff).
Proof.
  intros hs.
  assert (Hlink : forall i, i < List.length hs ->
            chainTail hs (List.length hs - i)
            = closure (chainTail hs (List.length hs - S i)) hs i).
  { intros i Hi.
    replace (List.length hs - i) with (S (List.length hs - S i)) by lia.
    cbn [chainTail]. f_equal. lia. }
  split; [reflexivity |]. split; [apply prepare_spec |].
  split; [exact Hlink |]. split; [reflexivity |]. split.
  - intros i fn fuel s0 Hnth Hs0.
    assert (Hi : i < List.length hs).
    { apply nth_error_Some. rewrite Hnth. discriminate. }
    rewrite (Hlink i Hi) in Hs0. unfold NextF, EventNext. rewrite Hs0.
    rewrite invoke_closure, Hnth. reflexivity.
  - assert (Hd : depth (ev_next (prepare s oneOff)) = List.length hs).
    { rewrite prepare_spec. cbn [ev_next setNextFunc]. apply depth_chainTail. }
    destruct (Next_fuel (prepare s oneOff)) as [Hret Hfuel].
    split; [| split].
    + intros s0 Hs0. unfold Next, NextF. split; [| intros fuel];
        now apply EventNext_nil.
    + exact Hret.
    + intros fuel Hle. apply Hfuel. now rewrite Hd.
Qed.

(** C3, as stated, fails in both halves.  In [twiceHook] the second
    handler returns an error without calling [Next], yet the first handler
    calls [Next] again: the third handler runs and [Trigger] returns nil.
    In [overrideHook] the second handler calls [Next], gets the error of the
    third and returns nil, yet the first handler returns an error of its
    own, and so does [Trigger]. *)
Lemma veto_after_twice :
  vetoes (Some "veto") veto /\
  map Func (handlers twiceHook) = [Some twice; Some veto; Some (logging "H3")] /\
  (exists s',
      Trigger (newEvent twiceHook []) [] = Done None s' /\
      invoked s' = [twice; veto; logging "H3"] /\
      world s' = ["H3"]) /\
  ~ (exists s',
      Trigger (newEvent twiceHook []) [] = Done (Some "veto") s' /\
      invoked s' = [twice; veto]) /\
  swallows swallow /\
  map Func (handlers overrideHook) = [Some override; Some swallow; Some veto] /\
  (exists s',
      Trigger (newEvent overrideHook []) [] = Done (Some "override") s' /\
      invoked s' = [override; swallow; veto]) /\
  ~ (exists s', Trigger (newEvent overrideHook []) [] = Done None s').
Proof.
  split; [constructor |]. split; [reflexivity |]. split; [| split].
  - eexists. split; [reflexivity |]. split; reflexivity.
  - intros (s' & HT & _). vm_compute in HT. discriminate.
  - split; [repeat constructor |]. split; [reflexivity |]. split.
    + eexists. split; reflexivity.
    + intros (s' & HT). vm_compute in HT. discriminate.
Qed.

Lemma quiet_run_exec {W : Type} call (p : HandlerFunc W) s e s' :
  quiet_run p s e s' ->
  exec call p s = Done e s' /\
  ev_next s' = ev_next s /\ invoked s' = invoked s /\ st_hook s' = st_hook s.
Proof.
  induction 1 as [e s | k s e s' _ IH | w k s e s' _ IH]; cbn [exec]; auto.
Qed.

Lemma forward_run_exec {W : Type} call N (p : HandlerFunc W) s e s' :
  forward_run N p s e s' ->
  (forall s1 e1 s2,
      ev_next s1 = ev_next s -> invoked s1 = invoked s ->
      st_hook s1 = st_hook s ->
      N s1 e1 s2 -> EventNext call s1 = Done e1 s2) ->
  exec call p s = Done e s'.
Proof.
  induction 1 as [k s e s1 s' HN Hq | k s e s' _ IH | w k s e s' _ IH];
    intros Hcall; cbn [exec].
  - rewrite (Hcall s e s1 eq_refl eq_refl eq_refl HN).
    now apply quiet_run_exec.
  - now apply IH.
  - apply IH. intros s1 e1 s2. exact (Hcall s1 e1 s2).
Qed.

Lemma forward_run_frame {W : Type} N (p : HandlerFunc W) s e s' d :
  forward_run N p s e s' ->
  (forall s1 e1 s2,
      invoked s1 = invoked s -> st_hook s1 = st_hook s ->
      N s1 e1 s2 -> invoked s2 = invoked s1 ++ d /\ st_hook s2 = st_hook s1) ->
  invoked s' = invoked s ++ d /\ st_hook s' = st_hook s.
Proof.
  induction 1 as [k s e s1 s' HN Hq | k s e s' _ IH | w k s e s' _ IH];
    intros Hfr.
  - destruct (Hfr s e s1 eq_refl eq_refl HN) as [Hi Hh].
    destruct (quiet_run_exec (fun _ _ => Panic) _ _ _ _ Hq) as (_ & _ & Hi' & Hh').
    rewrite Hi', Hh', Hi, Hh. auto.
  - now apply IH.
  - apply IH. intros s1 e1 s2. exact (Hfr s1 e1 s2).
Qed.

(** Functions that forward in the run are transparent: the call made on
    them returns what the call made by the last of them returned. *)
Lemma forwarded_exec {W : Type} (hs rest : list (option (HandlerFunc W))) N :
  (forall fuel' s1 e1 s2,
      List.length rest <= fuel' ->
      ev_next s1 = chainTail hs (List.length rest) ->
      N s1 e1 s2 -> EventNext (invoke fuel') s1 = Done e1 s2) ->
  forall fw pre s fuel e s',
    hs = pre ++ map Some fw ++ rest ->
    List.length fw + List.length rest <= fuel ->
    ev_next s = chainTail hs (List.length fw + List.length rest) ->
    forwarded hs fw rest N s e s' ->
    EventNext (invoke fuel) s = Done e s'.
Proof.
  intros HN. induction fw as [|p fw IH]; intros pre s fuel e s' Hhs Hfuel Hs Hrun.
  - cbn in *. now apply HN.
  - cbn [List.length plus map app forwarded] in *.
    destruct fuel as [|fuel]; [lia |].
    assert (Hlen : List.length (map Some fw ++ rest)
                   = List.length fw + List.length rest).
    { now rewrite length_app, length_map. }
    rewrite <- Hlen in Hs.
    rewrite (EventNext_cons fuel hs pre (Some p) (map Some fw ++ rest) s Hhs Hs).
    apply (forward_run_exec _ _ _ _ _ _ Hrun).
    intros s1 e1 s2 Hn1 _ _ HN1.
    apply IH with (pre := pre ++ [Some p]); auto.
    + now rewrite <- app_assoc.
    + lia.
    + rewrite Hn1. unfold enter. cbn [ev_next record setNextFunc].
      now rewrite Hlen.
Qed.

Lemma forwarded_frame {W : Type} (hs rest : list (option (HandlerFunc W))) N d :
  (forall s1 e1 s2,
      N s1 e1 s2 -> invoked s2 = invoked s1 ++ d /\ st_hook s2 = st_hook s1) ->
  forall fw s e s',
    forwarded hs fw rest N s e s' ->
    invoked s' = invoked s ++ fw ++ d /\ st_hook s' = st_hook s.
Proof.
  intros HN. induction fw as [|p fw IH]; intros s e s' Hrun.
  - cbn in *. exact (HN _ _ _ Hrun).
  - cbn [forwarded] in Hrun.
    destruct (forward_run_frame _ _ _ _ _ (fw ++ d) Hrun) as [Hi Hh].
    + intros s1 e1 s2 _ _ HN1. exact (IH _ _ _ HN1).
    + unfold enter in Hi, Hh. cbn [invoked st_hook record setNextFunc] in Hi, Hh.
      rewrite Hi, Hh, <- app_assoc. auto.
Qed.

(** C3, amended: when in the run at hand every handler before it calls
    [Next] exactly once and returns what that call returned, a handler that
    in this run returns an error without calling [Next] keeps every later
    handler from running and [Trigger] returns exactly that error; and
    under the same condition on the handlers before it, a handler that in
    this run, having called [Next], returns nil makes [Trigger] return nil
    whatever the handlers further in did. *)
Theorem veto_and_swallow (W : Type) (s : State W) oneOff :
  (forall fw v post err s',
      chainOf (st_hook s) oneOff = map Some fw ++ Some v :: post ->
      forwarded (chainOf (st_hook s) oneOff) fw (Some v :: post)
                (vetoes_in_run (chainOf (st_hook s) oneOff) v post)
                (prepare s oneOff) err s' ->
      Trigger s oneOff = Done err s' /\
      invoked s' = invoked s ++ fw ++ [v] /\
      st_hook s' = st_hook s) /\
  (forall fw sw post s',
      chainOf (st_hook s) oneOff = map Some fw ++ Some sw :: post ->
      forwarded (chainOf (st_hook s) oneOff) fw (Some sw :: post)
                (returns_nil_in_run (chainOf (st_hook s) oneOff) sw post)
                (prepare s oneOff) None s' ->
      Trigger s oneOff = Done None s').
Proof.
  set (hs := chainOf (st_hook s) oneOff).
  assert (Hprep : forall fw rest,
             hs = map Some fw ++ rest ->
             ev_next (prepare s oneOff)
             = chainTail hs (List.length fw + List.length rest) /\
             depth (ev_next (prepare s oneOff))
             = List.length fw + List.length rest).
  { intros fw rest Hhs. rewrite prepare_spec. cbn [ev_next setNextFunc].
    fold hs. rewrite depth_chainTail.
    assert (Hlen : List.length hs = List.length fw + List.length rest).
    { now rewrite Hhs, length_app, length_map. }
    now rewrite Hlen. }
  split.
  - intros fw v post err s' Hhs Hrun. fold hs in Hhs, Hrun.
    destruct (Hprep fw (Some v :: post) Hhs) as [Hn Hd].
    split.
    + unfold Trigger, Next, NextF. rewrite Hd.
      apply (forwarded_exec hs (Some v :: post) (vetoes_in_run hs v post))
        with (fw := fw) (pre := []); auto.
      intros fuel' s1 e1 s2 Hf' Hn1 Hq. cbn [List.length] in Hf', Hn1.
      destruct fuel' as [|f]; [lia |].
      rewrite (EventNext_cons f hs (map Some fw) (Some v) post s1 Hhs Hn1).
      now apply quiet_run_exec.
    + destruct (forwarded_frame hs (Some v :: post) (vetoes_in_run hs v post) [v])
        with (fw := fw) (s := prepare s oneOff) (e := err) (s' := s')
        as [Hi Hh]; auto.
      * intros s1 e1 s2 Hq.
        destruct (quiet_run_exec (fun _ _ => Panic) _ _ _ _ Hq) as (_ & _ & Hi & Hh).
        rewrite Hi, Hh. unfold enter. cbn [invoked st_hook record setNextFunc].
        auto.
      * rewrite Hi, Hh, prepare_spec. cbn [invoked st_hook setNextFunc]. auto.
  - intros fw sw post s' Hhs Hrun. fold hs in Hhs, Hrun.
    destruct (Hprep fw (Some sw :: post) Hhs) as [Hn Hd].
    unfold Trigger, Next, NextF. rewrite Hd.
    apply (forwarded_exec hs (Some sw :: post) (returns_nil_in_run hs sw post))
      with (fw := fw) (pre := []); auto.
    intros fuel' s1 e1 s2 Hf' Hn1 [-> Hex]. cbn [List.length] in Hf', Hn1.
    destruct fuel' as [|f]; [lia |].
    rewrite (EventNext_cons f hs (map Some fw) (Some sw) post s1 Hhs Hn1).
    fold (enter hs sw post s1). rewrite <- Hex.
    apply (exec_fuel (List.length post) sw (enter hs sw post s1) f); [| lia].
    unfold enter. cbn [ev_next record setNextFunc]. now rewrite depth_chainTail.
Qed.

(** C4: the one-off functions given to [Trigger] come after all registered
    functions, in the order given: the call runs a prefix of the registered
    functions followed by the one-off functions, the whole of it when every
    function calls [Next].  The registry and its [Length] are what they
    were, and a later [Trigger] without one-off functions runs registered
    functions only. *)
Theorem oneOff_transient (W : Type) (s : State W) oneOff :
  Forall (fun o => o <> None) (chainOf (st_hook s) oneOff) ->
  exists e s' d rest,
    Trigger s oneOff = Done e s' /\
    map Func (handlers (st_hook s)) ++ oneOff = map Some d ++ rest /\
    invoked s' = invoked s ++ d /\
    (Forall (fun o => exists fn, o = Some fn /\ callsNext fn)
            (chainOf (st_hook s) oneOff) -> rest = []) /\
    st_hook s' = st_hook s /\
    Length (st_hook s') = Length (st_hook s) /\
    exists e2 s'' d2 rest2,
      Trigger s' [] = Done e2 s'' /\
      map Func (handlers (st_hook s)) = map Some d2 ++ rest2 /\
      invoked s'' = invoked s' ++ d2 /\
      Length (st_hook s'') = Length (st_hook s).
Proof.
  intros Hnn.
  destruct (Trigger_returns s oneOff Hnn) as (e & s' & d & rest & HT & Hd & _ & Hh & Hi).
  exists e, s', d, rest. split; [exact HT |]. split; [exact Hd |].
  split; [exact Hi |]. split; [| split; [exact Hh | split; [now rewrite Hh |]]].
  - intros Hall.
    destruct (Trigger_all s oneOff Hall) as (e' & s1 & d' & HT' & Hd' & _ & _ & Hi').
    rewrite HT in HT'. injection HT' as <- <-.
    rewrite Hi in Hi'. apply app_inv_head in Hi'. subst d'.
    rewrite Hd' in Hd. rewrite <- (app_nil_r (map Some d)) in Hd at 1.
    apply app_inv_head in Hd. now symmetry.
  - assert (Hnn' : Forall (fun o => o <> None) (chainOf (st_hook s') [])).
    { rewrite Hh. unfold chainOf in *. rewrite app_nil_r.
      rewrite Forall_app in Hnn. tauto. }
    destruct (Trigger_returns s' [] Hnn')
      as (e2 & s'' & d2 & rest2 & HT2 & Hd2 & _ & Hh2 & Hi2).
    exists e2, s'', d2, rest2. rewrite Hh in Hd2. unfold chainOf in Hd2.
    rewrite app_nil_r in Hd2. rewrite Hh2, Hh. auto.
Qed.

(** C5: [Trigger] overwrites the event's continuation with nil before it
    builds the chain: whatever continuation an earlier call left in the
    event, the call behaves as on a fresh event, the chain it installs ends
    in nil, and of two calls in a row on one event the second runs
    functions of its own chain only, none of the one-off functions that
    only the first was given. *)
Theorem Trigger_resets_next (W : Type) (s : State W) A B :
  (forall f, Trigger (setNextFunc f s) B = Trigger s B) /\
  (forall f,
      ev_next (prepare (setNextFunc f s) B)
      = chainTail (chainOf (st_hook s) B) (List.length (chainOf (st_hook s) B)) /\
      chainTail (chainOf (st_hook s) B) 0 = nil_func) /\
  (Forall (fun o => o <> None) (chainOf (st_hook s) A) ->
   Forall (fun o => o <> None) (chainOf (st_hook s) B) ->
   exists e1 s1 e2 s2 d rest,
     Trigger s A = Done e1 s1 /\
     Trigger s1 B = Done e2 s2 /\
     chainOf (st_hook s) B = map Some d ++ rest /\
     invoked s2 = invoked s1 ++ d /\
     forall a, In (Some a) A -> ~ In (Some a) (chainOf (st_hook s) B) ->
               ~ In a d).
Proof.
  split; [reflexivity |]. split.
  - intros f. rewrite prepare_spec. split; reflexivity.
  - intros HA HB.
    destruct (Trigger_returns s A HA) as (e1 & s1 & _ & _ & HT1 & _ & _ & Hh1 & _).
    rewrite <- Hh1 in HB.
    destruct (Trigger_returns s1 B HB) as (e2 & s2 & d & rest & HT2 & Hd & _ & _ & Hi).
    rewrite Hh1 in Hd.
    exists e1, s1, e2, s2, d, rest. repeat split; auto.
    intros a _ Hn Hin. apply Hn. rewrite Hd, in_app_iff. left.
    now apply in_map.
Qed.

End TriggerProperties.

(** * Properties of the transports *)

Section MailerProperties.

Context {Message Env : Type}.

Implicit Types (h : Hook (@SendWorld Message Env)) (m : Message) (env : Env).
Implicit Types (deliver : Message -> Env -> error * Env).

Lemma map_Some_snoc {A : Type} (d : list A) (l : list (option A)) a :
  map Some d = l ++ [Some a] ->
  exists d', d = d' ++ [a] /\ map Some d' = l.
Proof.
  revert l. induction d as [|x d IH]; intros l H.
  - destruct l; discriminate.
  - destruct l as [|y l]; cbn in H.
    + injection H as -> Hd. destruct d; [| discriminate]. now exists [].
    + injection H as <- Hd. destruct (IH l Hd) as (d' & -> & <-).
      now exists (x :: d').
Qed.

(** One call of the continuation of the delivery, the last of the chain. *)
Lemma EventNext_deliver hs pre deliver (s : State (@SendWorld Message Env)) fuel :
  hs = pre ++ [Some (deliverFunc deliver)] ->
  ev_next s = chainTail hs 1 ->
  1 <= fuel ->
  exists s',
    EventNext (invoke fuel) s
    = Done (fst (deliver (ev_Message (world s)) (outside (world s)))) s' /\
    ev_next s' = nil_func /\
    st_hook s' = st_hook s /\
    invoked s' = invoked s ++ [deliverFunc deliver] /\
    world s' = mkSendWorld (ev_Message (world s))
                           (snd (deliver (ev_Message (world s)) (outside (world s)))).
Proof.
  intros Hhs Hs Hfuel. destruct fuel as [|fuel]; [lia |].
  rewrite (EventNext_cons fuel hs pre (Some (deliverFunc deliver)) [] s Hhs Hs).
  unfold deliverFunc. cbn [exec world record setNextFunc].
  destruct (deliver (ev_Message (world s)) (outside (world s))) as [err env'].
  cbn [exec]. eexists. split; [reflexivity |]. cbn. auto.
Qed.

(** C10: with a hook exposed, [Send] of either transport is the trigger of
    that hook on a send event carrying the message, with the delivery as
    the only one-off function.  So the delivery is the last entry of the
    chain: it runs at most once and only after every registered function
    has been called; when these all forward, it does run and its error is
    what [Send] returns; with nothing registered, [Send] is the
    delivery. *)
Theorem Send_through_hook
    (SMTPClient_send : @SMTPClient Message Env -> Message -> Env -> error * Env)
    (Sendmail_send : @Sendmail Message Env -> Message -> Env -> error * Env) :
  (forall c h m env,
      smtp_onSend c = Some h ->
      SMTPClient_Send SMTPClient_send c m env
      = routed_Send h (SMTPClient_send c) m env) /\
  (forall c h m env,
      sendmail_onSend c = Some h ->
      Sendmail_Send Sendmail_send c m env
      = routed_Send h (Sendmail_send c) m env) /\
  (forall h deliver m env,
      Forall (fun x => Func x <> None) (handlers h) ->
      exists e s' d,
        Trigger (newSendEvent h m env) [Some (deliverFunc deliver)] = Done e s' /\
        routed_Send h deliver m env = Sent e (Some h) (outside (world s')) /\
        invoked s' = d /\
        ((exists rest, map Func (handlers h) = map Some d ++ rest) \/
         (exists d', d = d' ++ [deliverFunc deliver] /\
                     map Func (handlers h) = map Some d'))) /\
  (forall h deliver m env fw,
      map Func (handlers h) = map Some fw ->
      Forall forwards fw ->
      exists s' w,
        Trigger (newSendEvent h m env) [Some (deliverFunc deliver)]
        = Done (fst (deliver (ev_Message w) (outside w))) s' /\
        invoked s' = fw ++ [deliverFunc deliver]) /\
  (forall deliver m env,
      routed_Send (mkHook []) deliver m env
      = Sent (fst (deliver m env)) (Some (mkHook [])) (snd (deliver m env))).
Proof.
  split; [| split; [| split; [| split]]].
  - intros c h m env Hc. unfold SMTPClient_Send, routed_Send. now rewrite Hc.
  - intros c h m env Hc. unfold Sendmail_Send, routed_Send. now rewrite Hc.
  - intros h deliver m env Hf.
    destruct (Trigger_returns (newSendEvent h m env) [Some (deliverFunc deliver)])
      as (e & s' & d & rest & HT & Hd & _ & Hh & Hi).
    { unfold chainOf. cbn [st_hook newSendEvent]. rewrite Forall_app. split.
      - now apply Forall_map.
      - constructor; [discriminate | constructor]. }
    exists e, s', d. split; [exact HT |]. split.
    { unfold routed_Send. rewrite HT. cbn [finish]. now rewrite Hh. }
    split; [exact Hi |].
    unfold chainOf in Hd. cbn [st_hook newSendEvent] in Hd.
    destruct rest as [|o rest] using rev_ind.
    + right. rewrite app_nil_r in Hd. symmetry in Hd.
      apply map_Some_snoc in Hd. destruct Hd as (d' & -> & <-). now exists d'.
    + left. exists rest. rewrite app_assoc in Hd.
      apply app_inj_tail in Hd. tauto.
  - intros h deliver m env fw Hfw Hall.
    set (s := newSendEvent h m env).
    destruct (Trigger_forwards
                (fun e (s' : State (@SendWorld Message Env)) =>
                   (exists w, e = fst (deliver (ev_Message w) (outside w))) /\
                   invoked s' = fw ++ [deliverFunc deliver])
                (fun e s' w H => H) s [Some (deliverFunc deliver)] fw
                [Some (deliverFunc deliver)])
      as (e & s' & HT & (w & ->) & Hi); auto.
    + unfold chainOf. cbn [st_hook s newSendEvent]. now rewrite Hfw.
    + intros fuel' s2 Hf' Hn2 Hh2 Hi2.
      destruct (EventNext_deliver (chainOf (st_hook s) [Some (deliverFunc deliver)])
                  (map Some fw) deliver s2 fuel')
        as (s3 & -> & _ & _ & Hi3 & _); auto.
      * unfold chainOf. cbn [st_hook s newSendEvent]. now rewrite Hfw.
      * eexists _, s3. split; [reflexivity |]. split; [now eexists |].
        rewrite Hi3, Hi2. reflexivity.
    + now exists s', w.
  - intros deliver m env. unfold routed_Send, Trigger, Next, NextF, prepare.
    cbn. destruct (deliver m env) as [err env']. reflexivity.
Qed.

End MailerProperties.

(** * Concrete registries and transports *)

Section Instances.

Ltac distinct_strings :=
  repeat (constructor; [cbn; intuition discriminate |]); constructor.

Lemma registry123_reachable : reachable registry123.
Proof.
  apply (reach_Bind _ 0 (mkHook [H2; H1]) (Some H3) counting "h3" _ counting);
    [| reflexivity].
  apply (reach_Bind _ 0 (mkHook [H1]) (Some H2) counting "h2" _ counting);
    [| reflexivity].
  apply (reach_Bind _ 0 (mkHook []) (Some H1) counting "h1" _ counting);
    [| reflexivity].
  constructor.
Qed.

Lemma logging_forwards name : forwards (logging name).
Proof. repeat constructor. Qed.

Lemma logging_callsNext name : callsNext (logging name).
Proof. repeat constructor. Qed.

Lemma Trigger_priority_order_witness :
  (handlers registry123 = sortStable (stored ["h1"; "h2"; "h3"] [H1; H2; H3]) /\
   StronglySorted le_prio (handlers registry123) /\
   forall p, filter (hasPrio p) (handlers registry123)
             = filter (hasPrio p) (stored ["h1"; "h2"; "h3"] [H1; H2; H3])) /\
  (exists e s' d rest,
      Trigger (newEvent vetoHook []) [] = Done e s' /\
      map Func (handlers vetoHook) = map Some d ++ rest /\
      invoked s' = d) /\
  (exists e s' d,
      Trigger (newEvent registry123 []) [] = Done e s' /\
      map Func (handlers registry123) = map Some d /\
      invoked s' = d).
Proof.
  destruct Trigger_priority_order as (_ & _ & Hgen & Hpre & Hall).
  split; [| split].
  - apply (Hgen (list string) 0 [H1; H2; H3] counting ["h1"; "h2"; "h3"]
                registry123 counting).
    + reflexivity.
    + repeat constructor; discriminate.
    + distinct_strings.
  - apply (Hpre (list string) (newEvent vetoHook [])).
    repeat constructor; discriminate.
  - apply (Hall (list string) (newEvent registry123 [])).
    repeat constructor; eexists; (split; [reflexivity | apply logging_callsNext]).
Defined.

Lemma Trigger_builds_chain_witness :
  let s := newEvent registry123 [] in
  let hs := chainOf registry123 [] in
  chainTail hs 2 = closure (chainTail hs 1) hs 1 /\
  NextF 3 (prepare s [])
  = exec (invoke 2) (logging "H2")
         (record (logging "H2") (setNextFunc (chainTail hs 2) (prepare s []))) /\
  Next s = Done None s /\
  TriggerF 5 s [] = Trigger s [].
Proof.
  intros s hs.
  destruct (Trigger_builds_chain (list string) s [])
    as (_ & Hprep & Hlink & _ & Hcall & Hnil & _ & Hfuel).
  split; [| split; [| split]].
  - apply (Hlink 1). cbn. lia.
  - apply (Hcall 0 (logging "H2") 2 (prepare s [])); reflexivity.
  - apply (Hnil s). reflexivity.
  - apply Hfuel. cbn. lia.
Defined.

Lemma veto_and_swallow_witness :
  (exists s',
      Trigger (newEvent validatorHook []) [] = Done (Some "rejected") s' /\
      invoked s' = [logging "H2"; validator] /\
      st_hook s' = validatorHook) /\
  (exists s', Trigger (newEvent twiceSwallowHook []) [] = Done None s').
Proof.
  split.
  - eexists.
    apply (proj1 (veto_and_swallow (list string) (newEvent validatorHook []) [])
                 [logging "H2"] validator
                 [Some (logging "H1"); Some (logging "H3")] (Some "rejected")).
    + reflexivity.
    + cbn [forwarded]. unfold logging.
      apply forward_Get, forward_Put, forward_Next with
        (s1 := enter (chainOf validatorHook []) validator
                 [Some (logging "H1"); Some (logging "H3")]
                 (setWorld ["H2"]
                    (enter (chainOf validatorHook []) (logging "H2")
                       [Some validator; Some (logging "H1"); Some (logging "H3")]
                       (prepare (newEvent validatorHook []) [])))).
      * unfold vetoes_in_run, validator. apply quiet_Get. cbn. apply quiet_Ret.
      * apply quiet_Ret.
  - eexists.
    apply (proj2 (veto_and_swallow (list string) (newEvent twiceSwallowHook []) [])
                 [logging "H2"] twice [Some veto; Some (logging "H3")]).
    + reflexivity.
    + cbn [forwarded]. unfold logging.
      eapply forward_Get, forward_Put, forward_Next.
      * split; reflexivity.
      * apply quiet_Ret.
Defined.

Lemma oneOff_transient_witness :
  exists e s' d rest,
    Trigger (newEvent registry123 []) [Some (logging "once")] = Done e s' /\
    map Func (handlers registry123) ++ [Some (logging "once")]
    = map Some d ++ rest /\
    invoked s' = d /\
    (Forall (fun o => exists fn, o = Some fn /\ callsNext fn)
            (chainOf registry123 [Some (logging "once")]) -> rest = []) /\
    st_hook s' = registry123 /\
    Length (st_hook s') = 3 /\
    exists e2 s'' d2 rest2,
      Trigger s' [] = Done e2 s'' /\
      map Func (handlers registry123) = map Some d2 ++ rest2 /\
      invoked s'' = invoked s' ++ d2 /\
      Length (st_hook s'') = 3.
Proof.
  apply (oneOff_transient (list string) (newEvent registry123 [])
                          [Some (logging "once")]).
  repeat constructor; discriminate.
Defined.

Lemma Trigger_resets_next_witness :
  let s := newEvent vetoHook [] in
  Trigger (setNextFunc (closure nil_func [Some (logging "stale")] 0) s)
          [Some (logging "b")]
  = Trigger s [Some (logging "b")] /\
  exists e1 s1 e2 s2 d rest,
    Trigger s [Some (logging "a")] = Done e1 s1 /\
    Trigger s1 [Some (logging "b")] = Done e2 s2 /\
    chainOf vetoHook [Some (logging "b")] = map Some d ++ rest /\
    invoked s2 = invoked s1 ++ d /\
    forall a, In (Some a) [Some (logging "a")] ->
              ~ In (Some a) (chainOf vetoHook [Some (logging "b")]) ->
              ~ In a d.
Proof.
  intros s.
  destruct (Trigger_resets_next (list string) s
              [Some (logging "a")] [Some (logging "b")]) as (Hreset & _ & Hseq).
  split.
  - apply Hreset.
  - apply Hseq; repeat constructor; discriminate.
Defined.

Lemma Bind_sorted_stable_witness :
  StronglySorted le_prio (handlers registry123) /\
  StronglySorted le_prio [H2; H1] /\
  Permutation [H2; H1] (place [H1] (setId "h2" H2)) /\
  forall p, filter (hasPrio p) [H2; H1]
            = filter (hasPrio p) (place [H1] (setId "h2" H2)).
Proof.
  split.
  - apply (proj1 Bind_sorted_stable). exact registry123_reachable.
  - apply (proj2 Bind_sorted_stable 0 (mkHook [H1]) H2 counting "h2"
                 (mkHook [H2; H1]) counting).
    + discriminate.
    + reflexivity.
Defined.

Lemma Bind_replaces_in_slot_witness :
  exists l1 l2 h',
    handlers registry123 = l1 ++ H1 :: l2 /\
    Bind 0 registry123 (Some H1') counting = Some ("h1", h', counting) /\
    handlers h' = [H2; H3; H1'] /\
    StronglySorted le_prio (handlers h') /\
    Permutation (handlers h') (l1 ++ H1' :: l2) /\
    (forall p, filter (hasPrio p) (handlers h')
               = filter (hasPrio p) (l1 ++ H1' :: l2)) /\
    (exists a b, handlers h' = a ++ H1' :: b /\ a ++ b = l1 ++ l2) /\
    Length h' = Length registry123 /\
    (Priority H1' = Priority H1 -> handlers h' = l1 ++ H1' :: l2).
Proof.
  destruct (Bind_replaces_in_slot 0 registry123 H1' H1 counting)
    as (l1 & l2 & h' & Hsplit & HB & _ & Hs & Hp & Hf & Hmove & Hlen & Hsame).
  - exact registry123_reachable.
  - cbn. auto.
  - reflexivity.
  - discriminate.
  - exists l1, l2, h'. repeat split; auto.
    vm_compute in HB. injection HB as <-. reflexivity.
Defined.

Lemma ids_unique_witness :
  NoDup (ids (handlers registry123)) /\
  ("ABCDEFGHIJKLMNOPQRST" <> "" /\
   ~ In "ABCDEFGHIJKLMNOPQRST" (ids (handlers registry123)) /\
   In "ABCDEFGHIJKLMNOPQRST"
      (ids (sortStable (handlers registry123
                        ++ [setId "ABCDEFGHIJKLMNOPQRST" (anon "a")])))) /\
  "ABCDEFGHIJKLMNOPQRST" <> "opqrstuvwxyz01234567" /\
  exists id h' r', Bind 2 (mkHook [setId "ABCDEFGHIJKLMNOPQRST" (anon "a")])
                        (Some (anon "b")) (fun k => repeating (20 + k))
                   = Some (id, h', r').
Proof.
  destruct (@ids_unique (list string)) as (Huniq & Hfresh & Htwo & Hret).
  split; [| split; [| split]].
  - apply Huniq. exact registry123_reachable.
  - apply (Hfresh 1 registry123 (anon "a") counting "ABCDEFGHIJKLMNOPQRST"
                  (mkHook (sortStable (handlers registry123
                     ++ [setId "ABCDEFGHIJKLMNOPQRST" (anon "a")])))
                  (fun k => counting (20 + k))).
    + discriminate.
    + reflexivity.
    + reflexivity.
  - apply (Htwo 1 2 (mkHook []) (anon "a") (anon "b") repeating
                (fun k => repeating (20 + k))
                "ABCDEFGHIJKLMNOPQRST" "opqrstuvwxyz01234567"
                (mkHook [setId "ABCDEFGHIJKLMNOPQRST" (anon "a")])
                (mkHook [setId "ABCDEFGHIJKLMNOPQRST" (anon "a");
                         setId "opqrstuvwxyz01234567" (anon "b")])
                (fun k => repeating (20 + k))
                (fun k => repeating (60 + k)));
      try discriminate; reflexivity.
  - apply (Hret 1 2 (mkHook [setId "ABCDEFGHIJKLMNOPQRST" (anon "a")])
                (anon "b") (fun k => repeating (20 + k))).
    + discriminate.
    + reflexivity.
    + lia.
    + vm_compute. intuition discriminate.
Defined.

Lemma silent_noops_witness :
  Bind 0 registry123 (Some noFunc) counting = Some ("", registry123, counting) /\
  Unbind ["nope"] registry123 = registry123 /\
  Unbind ["nope"; "h4"] registry123 = registry123 /\
  Length (Unbind ["nope"; "h4"] registry123) = Length registry123.
Proof.
  destruct (@silent_noops (list string)) as (_ & Hnil & Hone & Hmany).
  split; [| split].
  - apply Hnil. reflexivity.
  - apply Hone. cbn. intuition discriminate.
  - apply Hmany. intros id [<- | [<- | []]]; cbn; intuition discriminate.
Defined.

Lemma Send_through_hook_witness :
  SMTPClient_Send (fun _ => outbox) smtpClient "hello" []
  = routed_Send stampHook outbox "hello" [] /\
  Sendmail_Send (fun _ => outbox) sendmailClient "hello" []
  = routed_Send stampHook outbox "hello" [] /\
  (exists e s' d,
      Trigger (newSendEvent stampHook "hello" []) [Some (deliverFunc outbox)]
      = Done e s' /\
      routed_Send stampHook outbox "hello" []
      = Sent e (Some stampHook) (outside (world s')) /\
      invoked s' = d /\
      ((exists rest, map Func (handlers stampHook) = map Some d ++ rest) \/
       (exists d', d = d' ++ [deliverFunc outbox] /\
                   map Func (handlers stampHook) = map Some d'))) /\
  (exists s' w,
      Trigger (newSendEvent stampHook "hello" []) [Some (deliverFunc outbox)]
      = Done (fst (outbox (ev_Message w) (outside w))) s' /\
      invoked s' = [stamp] ++ [deliverFunc outbox]).
Proof.
  destruct (@Send_through_hook string (list string)
              (fun _ => outbox) (fun _ => outbox))
    as (Hsmtp & Hsendmail & Hlast & Hfw & _).
  split; [| split; [| split]].
  - apply Hsmtp. reflexivity.
  - apply Hsendmail. reflexivity.
  - apply Hlast. repeat constructor; discriminate.
  - apply Hfw.
    + reflexivity.
    + repeat constructor.
Defined.

(** Evaluations. *)

Example Trigger_veto_runs :
  exists s', Trigger (newEvent vetoHook []) [] = Done (Some "veto") s' /\
             world s' = ["H2"] /\
             ev_next s' <> nil_func.
Proof. eexists. split; [reflexivity |]. split; [reflexivity | discriminate]. Qed.

Example Trigger_swallow_runs :
  exists s', Trigger (newEvent swallowHook []) [] = Done None s' /\
             world s' = ["H2"; "H1"].
Proof. eexists. split; reflexivity. Qed.

Example Bind_replaces_H1 :
  Bind 0 registry123 (Some H1') counting
  = Some ("h1", mkHook [H2; H3; H1'], counting).
Proof. reflexivity. Qed.

Example Bind_retries_on_collision :
  exists h r,
    bindAll 2 (mkHook []) [anon "a"; anon "b"] repeating
    = Some (["ABCDEFGHIJKLMNOPQRST"; "opqrstuvwxyz01234567"], h, r) /\
    bindAll 1 (mkHook []) [anon "a"; anon "b"] repeating = None.
Proof. eexists _, _. split; reflexivity. Qed.

Example Unbind_removes_one :
  Unbind ["h1"] registry123 = mkHook [H2; H3] /\
  Length (UnbindAll registry123) = 0.
Proof. split; reflexivity. Qed.

Example Send_stamps_then_delivers :
  SMTPClient_Send (fun _ => outbox) smtpClient "hello" []
  = Sent None (Some stampHook) ["hello!"].
Proof. reflexivity. Qed.

End Instances.

(** * More about the registry *)

Section RegistryMore.

Context {W : Type}.

Implicit Types (hs l : list (Handler W)) (x y : Handler W) (h : Hook W).

Lemma insertStable_split l x :
  StronglySorted le_prio l ->
  exists l1 l2,
    l = l1 ++ l2 /\ insertStable l x = l1 ++ x :: l2 /\
    Forall (fun y => (Priority y <= Priority x)%Z) l1 /\
    Forall (fun y => (Priority x < Priority y)%Z) l2.
Proof.
  induction l as [|y tl IH]; intros Hs.
  - exists [], []. repeat split; constructor.
  - apply StronglySorted_inv in Hs. destruct Hs as [Htl Hy].
    cbn [insertStable]. destruct (Priority x <? Priority y)%Z eqn:E.
    + apply Z.ltb_lt in E. exists [], (y :: tl). repeat split; [constructor |].
      constructor; [exact E |].
      eapply Forall_impl; [| exact Hy]. unfold le_prio. intros; lia.
    + apply Z.ltb_ge in E.
      destruct (IH Htl) as (l1 & l2 & -> & -> & H1 & H2).
      exists (y :: l1), l2. repeat split; auto.
Qed.

Lemma removeFirst_app id l1 x l2 :
  ~ In id (ids l1) -> Id x = id ->
  removeFirst id (l1 ++ x :: l2) = l1 ++ l2.
Proof.
  intros Hn Hx. induction l1 as [|e l1 IH]; cbn [removeFirst app].
  - apply hasId_true in Hx. now rewrite Hx.
  - destruct (hasId id e) eqn:E.
    + apply hasId_true in E. exfalso. apply Hn. now left.
    + rewrite IH; [reflexivity |]. intros Hc. apply Hn. now right.
Qed.

Lemma removeLast_app id l1 x l2 :
  ~ In id (ids l2) -> Id x = id ->
  removeLast id (l1 ++ x :: l2) = l1 ++ l2.
Proof.
  intros Hn Hx. unfold removeLast. rewrite rev_app_distr. cbn [rev].
  rewrite <- app_assoc. cbn [app]. rewrite removeFirst_app; auto.
  - now rewrite rev_app_distr, !rev_involutive.
  - rewrite ids_rev. intros Hc. apply Hn. now apply in_rev.
Qed.

Lemma NoDup_ids_split l1 x l2 :
  NoDup (ids (l1 ++ x :: l2)) ->
  ~ In (Id x) (ids l1) /\ ~ In (Id x) (ids l2).
Proof.
  unfold ids. rewrite map_app. cbn [map]. intros H.
  apply NoDup_remove_2 in H. rewrite in_app_iff in H. tauto.
Qed.

(** X1: unbinding the id of a registered handler removes that handler and
    no other: the rest keeps its order, [Length] drops by one and the id is
    no longer registered. *)
Theorem Unbind_removes_exactly h x :
  reachable h ->
  In x (handlers h) ->
  exists l1 l2,
    handlers h = l1 ++ x :: l2 /\
    handlers (Unbind [Id x] h) = l1 ++ l2 /\
    Length (Unbind [Id x] h) + 1 = Length h /\
    ~ In (Id x) (ids (handlers (Unbind [Id x] h))).
Proof.
  intros Hr Hin. apply reachable_wf in Hr. destruct Hr as (Hnd & _).
  destruct (in_split _ _ Hin) as (l1 & l2 & Hsplit). exists l1, l2.
  rewrite Hsplit in Hnd. destruct (NoDup_ids_split _ _ _ Hnd) as [Hn1 Hn2].
  assert (Hrm : handlers (Unbind [Id x] h) = l1 ++ l2).
  { cbn [Unbind handlers fold_left]. rewrite Hsplit.
    now apply removeLast_app. }
  split; [exact Hsplit |]. split; [exact Hrm |]. split.
  - unfold Length. rewrite Hrm, Hsplit, !length_app. cbn [List.length]. lia.
  - rewrite Hrm. unfold ids. rewrite map_app, in_app_iff. tauto.
Qed.

Lemma Bind_fresh_shape fuel h x r id h' r' :
  reachable h ->
  Func x <> None ->
  Id x = "" \/ ~ In (Id x) (ids (handlers h)) ->
  Bind fuel h (Some x) r = Some (id, h', r') ->
  ~ In id (ids (handlers h)) /\
  exists l1 l2,
    handlers h = l1 ++ l2 /\
    handlers h' = l1 ++ setId id x :: l2 /\
    Forall (fun y => (Priority y <= Priority x)%Z) l1 /\
    Forall (fun y => (Priority x < Priority y)%Z) l2 /\
    Length h' = S (Length h).
Proof.
  intros Hr Hf Hnew HB. apply reachable_wf in Hr. destruct Hr as (_ & _ & _ & Hs).
  destruct (Bind_inv _ _ _ _ _ _ _ Hf HB) as (Hh' & _ & Hid & Hfresh).
  assert (Hn : ~ In id (ids (handlers h))).
  { destruct Hnew as [He | Hn]; [now apply Hfresh |].
    destruct (String.eqb_spec (Id x) "") as [He | Hne]; [now apply Hfresh |].
    destruct (Hid Hne) as [-> _]. exact Hn. }
  split; [exact Hn |].
  rewrite place_fresh in Hh' by exact Hn.
  rewrite sortStable_snoc, (sortStable_id _ Hs) in Hh'.
  destruct (insertStable_split (handlers h) (setId id x) Hs)
    as (l1 & l2 & H12 & Hins & H1 & H2).
  exists l1, l2. rewrite Hh', Hins. repeat split; auto.
  unfold Length. rewrite Hh', Hins, H12, !length_app. cbn [List.length]. lia.
Qed.

(** X2: a handler bound under an id that was not registered (a generated id
    never is) takes its place behind every registered handler of lower or
    equal priority and before every handler of higher priority; the
    handlers registered before keep their order and [Length] grows by
    one. *)
Theorem Bind_new_position fuel h x r id h' r' :
  reachable h ->
  Func x <> None ->
  Id x = "" \/ ~ In (Id x) (ids (handlers h)) ->
  Bind fuel h (Some x) r = Some (id, h', r') ->
  exists l1 l2,
    handlers h = l1 ++ l2 /\
    handlers h' = l1 ++ setId id x :: l2 /\
    Forall (fun y => (Priority y <= Priority x)%Z) l1 /\
    Forall (fun y => (Priority x < Priority y)%Z) l2 /\
    Length h' = S (Length h).
Proof.
  intros Hr Hf Hnew HB.
  exact (proj2 (Bind_fresh_shape _ _ _ _ _ _ _ Hr Hf Hnew HB)).
Qed.

(** X3: binding a handler under an id that was not registered and then
    unbinding the returned id gives back the registry as it was. *)
Theorem Bind_Unbind_roundtrip fuel h x r id h' r' :
  reachable h ->
  Func x <> None ->
  Id x = "" \/ ~ In (Id x) (ids (handlers h)) ->
  Bind fuel h (Some x) r = Some (id, h', r') ->
  Unbind [id] h' = h.
Proof.
  intros Hr Hf Hnew HB. pose proof (reachable_wf _ Hr) as (_ & _ & _ & Hs).
  destruct (Bind_inv _ _ _ _ _ _ _ Hf HB) as (Hh' & _ & Hid & Hfresh).
  assert (Hn : ~ In id (ids (handlers h))).
  { destruct Hnew as [He | Hn]; [now apply Hfresh |].
    destruct (String.eqb_spec (Id x) "") as [He | Hne]; [now apply Hfresh |].
    destruct (Hid Hne) as [-> _]. exact Hn. }
  rewrite place_fresh in Hh' by exact Hn.
  rewrite sortStable_snoc, (sortStable_id _ Hs) in Hh'.
  destruct (insertStable_split (handlers h) (setId id x) Hs)
    as (l1 & l2 & H12 & Hins & _ & _).
  unfold Unbind. cbn [fold_left]. rewrite Hh', Hins.
  rewrite removeLast_app; [| | reflexivity].
  - destruct h as [hs]. cbn [handlers] in H12. now rewrite H12.
  - intros Hc. apply Hn. rewrite H12. unfold ids in *.
    rewrite map_app, in_app_iff. now right.
Qed.

(** X4: binding the same handler (with an id of its own) a second time
    changes nothing: the same id is returned and the registry stays as the
    first call left it. *)
Theorem Bind_twice fuel1 fuel2 h x r id h1 r1 ra :
  reachable h ->
  Func x <> None ->
  Id x <> "" ->
  Bind fuel1 h (Some x) r = Some (id, h1, r1) ->
  Bind fuel2 h1 (Some x) ra = Some (id, h1, ra).
Proof.
  intros Hr Hf Hx HB.
  assert (Hr1 : reachable h1) by (eapply reach_Bind; eassumption).
  apply reachable_wf in Hr1. destruct Hr1 as (Hnd & _ & _ & Hs).
  destruct (Bind_inv _ _ _ _ _ _ _ Hf HB) as (Hh1 & _ & Hid & _).
  destruct (Hid Hx) as [-> _]. rewrite setId_same in Hh1.
  assert (Hin : In x (handlers h1)).
  { rewrite Hh1. eapply Permutation_in; [apply Permutation_sym, sortStable_perm |].
    destruct (place_cases (handlers h) x)
      as [[_ ->] | (l1 & old & l2 & _ & -> & _ & _)];
      rewrite in_app_iff; right; now left. }
  destruct (in_split _ _ Hin) as (l1 & l2 & Hsplit).
  rewrite Hsplit in Hnd. destruct (NoDup_ids_split _ _ _ Hnd) as [Hn1 _].
  unfold Bind. destruct (Func x); [| congruence].
  apply String.eqb_neq in Hx. rewrite Hx. unfold place.
  rewrite Hsplit, (replaceExisting_first l1 x l2 x eq_refl Hn1).
  rewrite <- Hsplit, (sortStable_id _ Hs). now destruct h1.
Qed.

Lemma removeFirst_comm a b l :
  removeFirst a (removeFirst b l) = removeFirst b (removeFirst a l).
Proof.
  induction l as [|x tl IH]; [reflexivity |]. cbn [removeFirst].
  destruct (hasId b x) eqn:Eb, (hasId a x) eqn:Ea; cbn [removeFirst];
    rewrite ?Ea, ?Eb; try reflexivity.
  - apply hasId_true in Ea, Eb. congruence.
  - now rewrite IH.
Qed.

Lemma removeLast_comm a b l :
  removeLast a (removeLast b l) = removeLast b (removeLast a l).
Proof.
  unfold removeLast. rewrite !rev_involutive. now rewrite removeFirst_comm.
Qed.

(** X5: the result of [Unbind] does not depend on the order in which the
    ids are given. *)
Theorem Unbind_any_order idl1 idl2 h :
  Permutation idl1 idl2 -> Unbind idl1 h = Unbind idl2 h.
Proof.
  intros Hp. unfold Unbind. f_equal. generalize (handlers h).
  induction Hp as [| a l1 l2 _ IH | a b l | l1 l2 l3 _ IH1 _ IH2];
    intros hs; cbn [fold_left].
  - reflexivity.
  - apply IH.
  - now rewrite removeLast_comm.
  - now rewrite IH1.
Qed.

End RegistryMore.

(** * Generated identifiers *)

Section Identifiers.

Lemma get_in_alphabet alphabet idx c :
  String.get idx alphabet = Some c -> In c (list_ascii_of_string alphabet).
Proof.
  revert idx. induction alphabet as [|a rest IH]; intros idx; cbn.
  - discriminate.
  - destruct idx as [|idx].
    + intros [= ->]. now left.
    + intros H. right. now apply (IH idx).
Qed.

Lemma get_below alphabet idx :
  idx < String.length alphabet -> exists c, String.get idx alphabet = Some c.
Proof.
  revert idx. induction alphabet as [|a rest IH]; intros idx; cbn.
  - lia.
  - destruct idx as [|idx]; [eauto |]. intros H. apply IH. lia.
Qed.

Lemma pseudorandomStringWithAlphabet_shape n alphabet r :
  alphabet <> "" ->
  String.length (fst (pseudorandomStringWithAlphabet n alphabet r)) = n /\
  drawnFrom alphabet (fst (pseudorandomStringWithAlphabet n alphabet r)) /\
  forall k, snd (pseudorandomStringWithAlphabet n alphabet r) k = r (n + k).
Proof.
  intros Hne.
  assert (Hlen : String.length alphabet <> 0).
  { destruct alphabet; [congruence | discriminate]. }
  revert r. induction n as [|n IH]; intros r; cbn [pseudorandomStringWithAlphabet].
  - repeat split. constructor.
  - unfold Intn.
    destruct (get_below alphabet (r 0 mod String.length alphabet)) as [c Hc].
    { now apply Nat.mod_upper_bound. }
    rewrite Hc. specialize (IH (fun k => r (S k))).
    destruct (pseudorandomStringWithAlphabet n alphabet (fun k => r (S k)))
      as [rest r2].
    cbn [fst snd] in *. destruct IH as (IH1 & IH2 & IH3).
    split; [cbn; now rewrite IH1 |]. split.
    + unfold drawnFrom in *. cbn [list_ascii_of_string]. constructor; [| exact IH2].
      eapply get_in_alphabet. exact Hc.
    + intros k. rewrite IH3. f_equal.
Qed.

Lemma DUPLICATE_CHECK_generated {W : Type} (P : string -> Prop)
    fuel (hs : list (Handler W)) id r id' r' :
  (forall r0, P (fst (generateHookId r0))) ->
  P id ->
  DUPLICATE_CHECK fuel hs id r = Some (id', r') ->
  P id'.
Proof.
  intros Hgen. revert id r. induction fuel as [|fuel IH]; intros id r Hid;
    cbn [DUPLICATE_CHECK]; [discriminate |].
  destruct (existsb (hasId id) hs).
  - pose proof (Hgen r) as Hr. destruct (generateHookId r) as [id1 r1].
    now apply IH.
  - now intros [= <- <-].
Qed.

Lemma generateHookId_shape r : hookIdShape (fst (generateHookId r)).
Proof.
  unfold generateHookId, pseudorandomString.
  destruct (pseudorandomStringWithAlphabet_shape 20 defaultRandomAlphabet r)
    as (H1 & H2 & _); [discriminate |].
  now split.
Qed.

(** X6: for a non-empty alphabet [pseudorandomStringWithAlphabet] returns
    exactly [length] characters, each one a character of the alphabet, and
    takes exactly [length] draws from the random source; so
    [pseudorandomString] gives strings over [A-Za-z0-9] of the length asked
    for. *)
Theorem pseudorandomString_shape n alphabet r :
  alphabet <> "" ->
  String.length (fst (pseudorandomStringWithAlphabet n alphabet r)) = n /\
  drawnFrom alphabet (fst (pseudorandomStringWithAlphabet n alphabet r)) /\
  (forall k, snd (pseudorandomStringWithAlphabet n alphabet r) k = r (n + k)) /\
  String.length (fst (pseudorandomString n r)) = n /\
  drawnFrom defaultRandomAlphabet (fst (pseudorandomString n r)).
Proof.
  intros Hne.
  destruct (pseudorandomStringWithAlphabet_shape n alphabet r Hne) as (H1 & H2 & H3).
  destruct (pseudorandomStringWithAlphabet_shape n defaultRandomAlphabet r)
    as (H4 & H5 & _); [discriminate |].
  repeat split; assumption.
Qed.

(** X7: [BindFunc] with a function registers it under a fresh id of 20
    characters over [A-Za-z0-9], with priority 0: behind the registered
    handlers of priority 0 or less and before those of higher priority. *)
Theorem BindFunc_registers {W : Type} fuel (h : Hook W) fn r id h' r' :
  reachable h ->
  BindFunc fuel h (Some fn) r = Some (id, h', r') ->
  String.length id = 20 /\
  drawnFrom defaultRandomAlphabet id /\
  ~ In id (ids (handlers h)) /\
  exists l1 l2,
    handlers h = l1 ++ l2 /\
    handlers h' = l1 ++ mkHandler (Some fn) id 0%Z :: l2 /\
    Forall (fun y => (Priority y <= 0)%Z) l1 /\
    Forall (fun y => (0 < Priority y)%Z) l2 /\
    Length h' = S (Length h).
Proof.
  intros Hr HB. unfold BindFunc in HB.
  assert (Hshape : hookIdShape id).
  { revert HB. unfold Bind. cbn [Func Id String.eqb].
    pose proof (generateHookId_shape r) as H0.
    destruct (generateHookId r) as [id0 r0]. cbn [fst] in H0.
    destruct (DUPLICATE_CHECK fuel (handlers h) id0 r0) as [[id1 r1]|] eqn:D;
      [| discriminate].
    intros [= <- <- <-].
    exact (DUPLICATE_CHECK_generated hookIdShape _ _ _ _ _ _
             generateHookId_shape H0 D). }
  destruct Hshape as [Hlen Hchars].
  destruct (Bind_fresh_shape fuel h (mkHandler (Some fn) "" 0%Z) r id h' r' Hr)
    as (Hn & l1 & l2 & H1 & H2 & H3 & H4 & H5); auto.
  - discriminate.
  - repeat split; auto. now exists l1, l2.
Qed.

End Identifiers.

(** * More about [Trigger] and [Next] *)

Section TriggerMore.

Context {W : Type}.

Implicit Types (s : State W) (oneOff : list (option (HandlerFunc W))).

(** X8: every handler of a registry built with [Bind], [Unbind] and
    [UnbindAll] has a function; so with one-off functions that are not nil
    the chain [Trigger] builds holds no nil function, and [Trigger] calls
    none: the panic of calling a nil function does not occur.  (What a
    handler's own body does is not part of this: the handler bodies here
    always return.) *)
Theorem Trigger_calls_no_nil s oneOff :
  reachable (st_hook s) ->
  Forall (fun o => o <> None) oneOff ->
  Forall (fun x => Func x <> None) (handlers (st_hook s)) /\
  Forall (fun o => o <> None) (chainOf (st_hook s) oneOff) /\
  Trigger s oneOff <> Panic.
Proof.
  intros Hr Hone. apply reachable_wf in Hr. destruct Hr as (_ & _ & Hf & _).
  assert (Hchain : Forall (fun o => o <> None) (chainOf (st_hook s) oneOff)).
  { unfold chainOf. rewrite Forall_app. split; [now apply Forall_map | exact Hone]. }
  split; [exact Hf |]. split; [exact Hchain |].
  pose proof (Trigger_chain s oneOff) as H. intros Hc. rewrite Hc in H.
  cbn [chain_post] in H. rewrite Forall_forall in Hchain.
  now apply (Hchain None).
Qed.

(** X9: after [Trigger] returned, the event's continuation stands for the
    functions of the chain that were not called.  When all were called, a
    further [Next] on the event is a no-op returning nil; otherwise it
    resumes the chain with the first function not yet called. *)
Theorem Next_after_Trigger s oneOff e s' :
  Forall (fun o => o <> None) (chainOf (st_hook s) oneOff) ->
  Trigger s oneOff = Done e s' ->
  exists d rest,
    chainOf (st_hook s) oneOff = map Some d ++ rest /\
    invoked s' = invoked s ++ d /\
    match rest with
    | [] => Next s' = Done None s'
    | first :: _ =>
        exists e2 s'' fn d2 rest2,
          Next s' = Done e2 s'' /\
          first = Some fn /\
          rest = map Some (fn :: d2) ++ rest2 /\
          invoked s'' = invoked s' ++ fn :: d2
    end.
Proof.
  intros Hnn HT.
  destruct (Trigger_returns s oneOff Hnn)
    as (e0 & s0 & d & rest & HT0 & Hd & Hn & _ & Hi).
  rewrite HT in HT0. injection HT0 as <- <-.
  exists d, rest. split; [exact Hd |]. split; [exact Hi |].
  set (hs := chainOf (st_hook s) oneOff) in *.
  destruct rest as [|o rest1].
  - unfold Next, NextF. now apply EventNext_nil.
  - unfold Next, NextF. rewrite Hn, depth_chainTail. cbn [List.length] in *.
    rewrite (EventNext_cons (List.length rest1) hs (map Some d) o rest1 s' Hd Hn).
    assert (Ho : o <> None).
    { rewrite Hd, Forall_app in Hnn. destruct Hnn as [_ Hnn].
      now apply Forall_inv in Hnn. }
    destruct o as [fn|]; [| congruence].
    set (s1 := record fn (setNextFunc (chainTail hs (List.length rest1)) s')).
    pose proof (exec_chain hs (List.length rest1) fn (map Some d ++ [Some fn])
                  rest1 s1 (List.length rest1)) as Hpost.
    destruct (exec (invoke (List.length rest1)) fn s1) as [e2 s2 | |];
      cbn [chain_post] in Hpost.
    + destruct Hpost as (d2 & rest2 & Hr & _ & _ & Hi2); auto.
      { now rewrite Hd, <- app_assoc. }
      exists e2, s2, fn, d2, rest2. repeat split.
      * cbn [map app]. now rewrite Hr.
      * rewrite Hi2. subst s1. cbn [invoked record setNextFunc].
        now rewrite <- app_assoc.
    + exfalso. rewrite Forall_forall in Hnn. apply (Hnn None); [| reflexivity].
      apply Hpost; auto. now rewrite Hd, <- app_assoc.
    + exfalso. apply Hpost; auto. now rewrite Hd, <- app_assoc.
Qed.

(** X10: when every function of the chain passes the call on and hands
    back what it got, all of them run and [Trigger] returns nil; with no
    function at all it returns nil at once.  The event is left without a
    continuation. *)
Theorem Trigger_all_forward s oneOff fw :
  chainOf (st_hook s) oneOff = map Some fw ->
  Forall forwards fw ->
  exists s',
    Trigger s oneOff = Done None s' /\
    invoked s' = invoked s ++ fw /\
    ev_next s' = nil_func /\
    st_hook s' = st_hook s.
Proof.
  intros Hhs Hfw.
  destruct (Trigger_forwards
              (fun e s' => e = None /\ invoked s' = invoked s ++ fw /\
                           ev_next s' = nil_func /\ st_hook s' = st_hook s)
              (fun e s' w H => H) s oneOff fw [])
    as (e & s' & HT & -> & Hi & Hn & Hh); auto.
  - now rewrite app_nil_r.
  - intros fuel' s2 _ Hn2 Hh2 Hi2. cbn [List.length chainTail] in Hn2.
    rewrite (EventNext_nil _ _ Hn2). eauto 7.
  - now exists s'.
Qed.

End TriggerMore.

(** * The delivery of the transports *)

Section DeliveryProperties.

Context {Reader Env : Type}.

Variable Address_String : mail_Address -> string.
Variable QEncode : string -> string.
Variable Header_Write : list (string * string) -> string.
Variable LookPath : string -> Env -> option string.
Variable Run : Command -> Env -> error * Env.
Variable smtpDeliver :
  bool -> Z -> string -> string -> option SMTPAuth -> @MessageData Reader ->
  Env -> error * Env.

Lemma firstLookPath_spec options env :
  match firstLookPath LookPath options env with
  | Some path =>
      exists before option after,
        options = before ++ option :: after /\
        LookPath option env = Some path /\
        Forall (fun o => LookPath o env = None) before
  | None => Forall (fun o => LookPath o env = None) options
  end.
Proof.
  induction options as [|o rest IH]; cbn [firstLookPath].
  - constructor.
  - destruct (LookPath o env) as [p|] eqn:E.
    + exists [], o, rest. repeat split; auto.
    + destruct (firstLookPath LookPath rest env) as [p|].
      * destruct IH as (before & o' & after & -> & Hp & Hb).
        exists (o :: before), o', after. repeat split; auto.
      * now constructor.
Qed.

Lemma firstLookPath_none options env :
  Forall (fun o => LookPath o env = None) options ->
  firstLookPath LookPath options env = None.
Proof.
  induction 1 as [|o rest Ho _ IH]; cbn [firstLookPath]; [reflexivity |].
  now rewrite Ho.
Qed.

Lemma addressesToStrings_bare (addresses : list mail_Address) :
  addressesToStrings Address_String addresses false = map Address addresses.
Proof. reflexivity. Qed.

(** X11: [findSendmailPath] answers with the path [exec.LookPath] gives for
    the first of /usr/sbin/sendmail, /usr/bin/sendmail and sendmail that it
    finds, whatever it would say about the later ones; it returns the empty
    path with an error only when it finds none of the three. *)
Theorem findSendmailPath_first_found env :
  match findSendmailPath LookPath env with
  | (path, None) =>
      exists before option after,
        ["/usr/sbin/sendmail"; "/usr/bin/sendmail"; "sendmail"]
        = before ++ option :: after /\
        LookPath option env = Some path /\
        Forall (fun o => LookPath o env = None) before
  | (path, Some _) =>
      path = "" /\
      Forall (fun o => LookPath o env = None)
             ["/usr/sbin/sendmail"; "/usr/bin/sendmail"; "sendmail"]
  end.
Proof.
  unfold findSendmailPath.
  pose proof (firstLookPath_spec
                ["/usr/sbin/sendmail"; "/usr/bin/sendmail"; "sendmail"] env) as H.
  destruct (firstLookPath LookPath _ env) as [p|]; [exact H | now split].
Qed.

(** X12: [Sendmail.send] refuses a nil message, then a message without a
    sender address, then one without a recipient in [To] (recipients in
    [Cc] or [Bcc] do not count), and fails when no sendmail binary is
    found; in all four cases no command is run and the outside is left as
    it was. *)
Theorem Sendmail_send_rejects c env :
  (Sendmail_send_impl (Reader := Reader) Address_String QEncode Header_Write LookPath Run) c None env = (Some "message is nil", env) /\
  (forall m, Address (From m) = "" ->
     (Sendmail_send_impl (Reader := Reader) Address_String QEncode Header_Write LookPath Run) c (Some m) env = (Some "from address is required", env)) /\
  (forall m, Address (From m) <> "" -> To m = [] ->
     (Sendmail_send_impl (Reader := Reader) Address_String QEncode Header_Write LookPath Run) c (Some m) env
     = (Some "at least one recipient in To is required", env)) /\
  (forall m, Address (From m) <> "" -> To m <> [] ->
     Forall (fun o => LookPath o env = None)
            ["/usr/sbin/sendmail"; "/usr/bin/sendmail"; "sendmail"] ->
     exists err, (Sendmail_send_impl (Reader := Reader) Address_String QEncode Header_Write LookPath Run) c (Some m) env = (Some err, env)).
Proof.
  split; [reflexivity |]. split; [| split].
  - intros m Hf. unfold Sendmail_send_impl.
    apply String.eqb_eq in Hf. now rewrite Hf.
  - intros m Hf Ht. unfold Sendmail_send_impl.
    apply String.eqb_neq in Hf. now rewrite Hf, Ht.
  - intros m Hf Ht Hnone. unfold Sendmail_send_impl.
    apply String.eqb_neq in Hf. rewrite Hf.
    destruct (To m) as [|a tl] eqn:E; [congruence |]. cbn [List.length Nat.eqb].
    unfold findSendmailPath. rewrite (firstLookPath_none _ _ Hnone). eauto.
Qed.

(** X13: for a message with a sender address and recipients in [To], and
    with a sendmail binary found, [Sendmail.send] runs that binary once with
    one argument per [To] recipient, the bare address whatever the name,
    and with the written header, an empty line and a body on standard input;
    the body is the HTML text if there is one, else the plain text if there
    is one, else a fixed placeholder, so it is never empty. *)
Theorem Sendmail_send_runs c m env path :
  Address (From m) <> "" ->
  To m <> [] ->
  findSendmailPath LookPath env = (path, None) ->
  exists header body,
    (Sendmail_send_impl (Reader := Reader) Address_String QEncode Header_Write LookPath Run) c (Some m) env
    = Run (mkCommand path (map Address (To m))
                     (String.append header (String.append CRLF body))) env /\
    List.length (map Address (To m)) = List.length (To m) /\
    body <> "" /\
    (HTML m <> "" -> body = HTML m) /\
    (HTML m = "" -> Text m <> "" -> body = Text m) /\
    (HTML m = "" -> Text m = "" -> body = "(empty body)").
Proof.
  intros Hf Ht Hp. unfold Sendmail_send_impl.
  apply String.eqb_neq in Hf. rewrite Hf.
  destruct (To m) as [|a tl] eqn:E; [congruence |]. cbn [List.length Nat.eqb].
  rewrite Hp. rewrite addressesToStrings_bare.
  eexists _, _. split; [reflexivity |]. split; [apply length_map |].
  destruct (String.eqb_spec (HTML m) "") as [Hh | Hh]; cbn [negb].
  - destruct (String.eqb_spec (Text m) "") as [Hx | Hx]; cbn [negb].
    + split; [discriminate |]. split; [congruence |]. split; [congruence |].
      reflexivity.
    + split; [exact Hx |]. split; [congruence |]. split; [reflexivity |].
      congruence.
  - split; [exact Hh |]. split; [reflexivity |]. split; congruence.
Qed.

(** X14: [SMTPClient.send] refuses a nil message, then a message without a
    sender address, then one without any recipient in [To], [Cc] and [Bcc],
    then a client with only one of user name and password set; in all four
    cases nothing is sent and the outside is left as it was.  With neither
    user name nor password the mail goes out without authentication. *)
Theorem SMTPClient_send_rejects c env :
  (SMTPClient_send_impl smtpDeliver) c None env = (Some "message is nil", env) /\
  (forall m, Address (From m) = "" ->
     (SMTPClient_send_impl smtpDeliver) c (Some m) env = (Some "from address is required", env)) /\
  (forall m, Address (From m) <> "" -> To m = [] -> Cc m = [] -> Bcc m = [] ->
     (SMTPClient_send_impl smtpDeliver) c (Some m) env
     = (Some "at least one recipient (To/Cc/Bcc) is required", env)) /\
  (forall m, Address (From m) <> "" -> To m ++ Cc m ++ Bcc m <> [] ->
     (Username _ _ c = "" /\ Password _ _ c <> "") \/
     (Username _ _ c <> "" /\ Password _ _ c = "") ->
     (SMTPClient_send_impl smtpDeliver) c (Some m) env
     = (Some "both username and password are required when using SMTP auth",
        env)) /\
  (forall m, Address (From m) <> "" -> To m ++ Cc m ++ Bcc m <> [] ->
     Username _ _ c = "" -> Password _ _ c = "" ->
     (SMTPClient_send_impl smtpDeliver) c (Some m) env
     = smtpDeliver (TLS _ _ c) (Port _ _ c) (Host _ _ c) (LocalName _ _ c)
                   None m env).
Proof.
  assert (Hrec : forall m : @MessageData Reader,
             To m ++ Cc m ++ Bcc m <> [] ->
             Nat.eqb (List.length (To m)) 0 && Nat.eqb (List.length (Cc m)) 0
             && Nat.eqb (List.length (Bcc m)) 0 = false).
  { intros m H. destruct (To m), (Cc m), (Bcc m); try reflexivity.
    now contradiction H. }
  split; [reflexivity |]. split; [| split; [| split]].
  - intros m Hf. unfold SMTPClient_send_impl.
    apply String.eqb_eq in Hf. now rewrite Hf.
  - intros m Hf Ht Hc Hb. unfold SMTPClient_send_impl.
    apply String.eqb_neq in Hf. now rewrite Hf, Ht, Hc, Hb.
  - intros m Hf Hr Hcred. unfold SMTPClient_send_impl.
    apply String.eqb_neq in Hf. rewrite Hf, (Hrec m Hr).
    destruct Hcred as [[Hu Hp] | [Hu Hp]].
    + apply String.eqb_neq in Hp. rewrite Hu, Hp. reflexivity.
    + apply String.eqb_neq in Hu. rewrite Hu, Hp. reflexivity.
  - intros m Hf Hr Hu Hp. unfold SMTPClient_send_impl.
    apply String.eqb_neq in Hf. rewrite Hf, (Hrec m Hr), Hu, Hp. reflexivity.
Qed.

Lemma routed_empty (deliver : option (@MessageData Reader) -> Env -> error * Env)
    m env :
  routed_Send (mkHook []) deliver m env
  = Sent (fst (deliver m env)) (Some (mkHook [])) (snd (deliver m env)).
Proof.
  unfold routed_Send, Trigger, Next, NextF, prepare. cbn.
  now destruct (deliver m env).
Qed.

(** X15: asking a transport for its hook creates it once and empty, and an
    exposed hook without handlers changes nothing about sending: [Send]
    returns the error of the delivery and leaves the outside as the delivery
    left it, as it does without a hook. *)
Theorem OnSend_neutral m env :
  (forall c : @Sendmail (option (@MessageData Reader)) Env,
      sendmail_onSend c = None ->
      let c' := fst (Sendmail_OnSend c) in
      Sendmail_OnSend c = (c', mkHook []) /\
      Sendmail_OnSend c' = (c', mkHook []) /\
      Sendmail_Send (Sendmail_send_impl (Reader := Reader) Address_String QEncode Header_Write LookPath Run) c m env
      = Sent (fst ((Sendmail_send_impl (Reader := Reader) Address_String QEncode Header_Write LookPath Run) c m env)) None (snd ((Sendmail_send_impl (Reader := Reader) Address_String QEncode Header_Write LookPath Run) c m env)) /\
      Sendmail_Send (Sendmail_send_impl (Reader := Reader) Address_String QEncode Header_Write LookPath Run) c' m env
      = Sent (fst ((Sendmail_send_impl (Reader := Reader) Address_String QEncode Header_Write LookPath Run) c m env)) (Some (mkHook []))
             (snd ((Sendmail_send_impl (Reader := Reader) Address_String QEncode Header_Write LookPath Run) c m env))) /\
  (forall c : @SMTPClient (option (@MessageData Reader)) Env,
      smtp_onSend c = None ->
      let c' := fst (SMTPClient_OnSend c) in
      SMTPClient_OnSend c = (c', mkHook []) /\
      SMTPClient_OnSend c' = (c', mkHook []) /\
      SMTPClient_Send (SMTPClient_send_impl smtpDeliver) c m env
      = Sent (fst ((SMTPClient_send_impl smtpDeliver) c m env)) None (snd ((SMTPClient_send_impl smtpDeliver) c m env)) /\
      SMTPClient_Send (SMTPClient_send_impl smtpDeliver) c' m env
      = Sent (fst ((SMTPClient_send_impl smtpDeliver) c m env)) (Some (mkHook []))
             (snd ((SMTPClient_send_impl smtpDeliver) c m env))).
Proof.
  split.
  - intros c Hc.
    assert (HO : Sendmail_OnSend c = (mkSendmail (Some (mkHook [])), mkHook [])).
    { unfold Sendmail_OnSend. now rewrite Hc. }
    cbv zeta. rewrite HO. cbn [fst].
    split; [reflexivity |]. split; [reflexivity |]. split.
    + unfold Sendmail_Send. rewrite Hc. now destruct ((Sendmail_send_impl (Reader := Reader) Address_String QEncode Header_Write LookPath Run) c m env).
    + unfold Sendmail_Send. cbn [sendmail_onSend].
      exact (routed_empty ((Sendmail_send_impl (Reader := Reader) Address_String QEncode Header_Write LookPath Run) c) m env).
  - intros c Hc.
    assert (HO : SMTPClient_OnSend c
                 = (mkSMTPClient (Some (mkHook [])) (TLS _ _ c) (Port _ _ c)
                      (Host _ _ c) (Username _ _ c) (Password _ _ c)
                      (AuthMethod _ _ c) (LocalName _ _ c),
                    mkHook [])).
    { unfold SMTPClient_OnSend. now rewrite Hc. }
    cbv zeta. rewrite HO. cbn [fst].
    split; [reflexivity |]. split; [reflexivity |]. split.
    + unfold SMTPClient_Send. rewrite Hc. now destruct ((SMTPClient_send_impl smtpDeliver) c m env).
    + unfold SMTPClient_Send. cbn [smtp_onSend].
      exact (routed_empty ((SMTPClient_send_impl smtpDeliver) c) m env).
Qed.

End DeliveryProperties.

(** * The further properties at concrete values *)

Section MoreInstances.

Lemma Unbind_removes_exactly_witness :
  exists l1 l2,
    handlers registry123 = l1 ++ H1 :: l2 /\
    handlers (Unbind ["h1"] registry123) = l1 ++ l2 /\
    Length (Unbind ["h1"] registry123) + 1 = Length registry123 /\
    ~ In "h1" (ids (handlers (Unbind ["h1"] registry123))).
Proof.
  apply (Unbind_removes_exactly registry123 H1).
  - exact registry123_reachable.
  - cbn. auto.
Defined.

Lemma Bind_new_position_witness :
  exists l1 l2,
    handlers registry123 = l1 ++ l2 /\
    [H2; H4; H1; H3] = l1 ++ setId "h4" H4 :: l2 /\
    Forall (fun y => (Priority y <= Priority H4)%Z) l1 /\
    Forall (fun y => (Priority H4 < Priority y)%Z) l2 /\
    Length (mkHook [H2; H4; H1; H3]) = S (Length registry123).
Proof.
  apply (Bind_new_position 0 registry123 H4 counting "h4"
                           (mkHook [H2; H4; H1; H3]) counting).
  - exact registry123_reachable.
  - discriminate.
  - right. cbn. intuition discriminate.
  - reflexivity.
Defined.

Lemma Bind_Unbind_roundtrip_witness :
  Unbind ["h4"] (mkHook [H2; H4; H1; H3]) = registry123.
Proof.
  apply (Bind_Unbind_roundtrip 0 registry123 H4 counting "h4"
                               (mkHook [H2; H4; H1; H3]) counting).
  - exact registry123_reachable.
  - discriminate.
  - right. cbn. intuition discriminate.
  - reflexivity.
Defined.

Lemma Bind_twice_witness :
  Bind 0 (mkHook [H2; H3; H1']) (Some H1') counting
  = Some ("h1", mkHook [H2; H3; H1'], counting).
Proof.
  apply (Bind_twice 0 0 registry123 H1' counting "h1"
                    (mkHook [H2; H3; H1']) counting counting).
  - exact registry123_reachable.
  - discriminate.
  - discriminate.
  - reflexivity.
Defined.

Lemma Unbind_any_order_witness :
  Unbind ["h1"; "h3"] registry123 = Unbind ["h3"; "h1"] registry123.
Proof.
  apply (Unbind_any_order ["h1"; "h3"] ["h3"; "h1"] registry123).
  apply perm_swap.
Defined.

Lemma pseudorandomString_shape_witness :
  String.length (fst (pseudorandomStringWithAlphabet 15 "ab" counting)) = 15 /\
  drawnFrom "ab" (fst (pseudorandomStringWithAlphabet 15 "ab" counting)) /\
  (forall k, snd (pseudorandomStringWithAlphabet 15 "ab" counting) k
             = counting (15 + k)) /\
  String.length (fst (pseudorandomString 15 counting)) = 15 /\
  drawnFrom defaultRandomAlphabet (fst (pseudorandomString 15 counting)).
Proof.
  apply (pseudorandomString_shape 15 "ab" counting). discriminate.
Defined.

Lemma BindFunc_registers_witness :
  String.length "ABCDEFGHIJKLMNOPQRST" = 20 /\
  drawnFrom defaultRandomAlphabet "ABCDEFGHIJKLMNOPQRST" /\
  ~ In "ABCDEFGHIJKLMNOPQRST" (ids (handlers registry123)) /\
  exists l1 l2,
    handlers registry123 = l1 ++ l2 /\
    [H2; H1; H3; mkHandler (Some (logging "f")) "ABCDEFGHIJKLMNOPQRST" 0%Z]
    = l1 ++ mkHandler (Some (logging "f")) "ABCDEFGHIJKLMNOPQRST" 0%Z :: l2 /\
    Forall (fun y => (Priority y <= 0)%Z) l1 /\
    Forall (fun y => (0 < Priority y)%Z) l2 /\
    Length (mkHook [H2; H1; H3;
                    mkHandler (Some (logging "f")) "ABCDEFGHIJKLMNOPQRST" 0%Z])
    = S (Length registry123).
Proof.
  apply (BindFunc_registers 1 registry123 (logging "f") counting
           "ABCDEFGHIJKLMNOPQRST"
           (mkHook [H2; H1; H3;
                    mkHandler (Some (logging "f")) "ABCDEFGHIJKLMNOPQRST" 0%Z])
           (fun k => counting (20 + k))).
  - exact registry123_reachable.
  - reflexivity.
Defined.

Lemma Trigger_calls_no_nil_witness :
  Forall (fun x => Func x <> None) (handlers registry123) /\
  Forall (fun o => o <> None) (chainOf registry123 [Some (logging "x")]) /\
  Trigger (newEvent registry123 []) [Some (logging "x")] <> Panic.
Proof.
  apply (Trigger_calls_no_nil (newEvent registry123 []) [Some (logging "x")]).
  - exact registry123_reachable.
  - repeat constructor. discriminate.
Defined.

Lemma Next_after_Trigger_witness :
  exists d rest,
    chainOf vetoHook [] = map Some d ++ rest /\
    invoked vetoAfter = d /\
    match rest with
    | [] => Next vetoAfter = Done None vetoAfter
    | first :: _ =>
        exists e2 s'' fn d2 rest2,
          Next vetoAfter = Done e2 s'' /\
          first = Some fn /\
          rest = map Some (fn :: d2) ++ rest2 /\
          invoked s'' = invoked vetoAfter ++ fn :: d2
    end.
Proof.
  apply (Next_after_Trigger (newEvent vetoHook []) [] (Some "veto") vetoAfter).
  - repeat constructor; discriminate.
  - reflexivity.
Defined.

Lemma Trigger_all_forward_witness :
  exists s',
    Trigger (newEvent registry123 []) [] = Done None s' /\
    invoked s' = [logging "H2"; logging "H1"; logging "H3"] /\
    ev_next s' = nil_func /\
    st_hook s' = registry123.
Proof.
  apply (Trigger_all_forward (newEvent registry123 []) []
                             [logging "H2"; logging "H1"; logging "H3"]).
  - reflexivity.
  - repeat constructor.
Defined.

Lemma Sendmail_send_rejects_witness :
  Sendmail_send_impl demoAddressString (fun x => x) demoHeaderWrite
                     demoLookPath demoRun plainSendmail (Some noSender) []
  = (Some "from address is required", []) /\
  Sendmail_send_impl demoAddressString (fun x => x) demoHeaderWrite
                     demoLookPath demoRun plainSendmail (Some ccOnly) []
  = (Some "at least one recipient in To is required", []) /\
  exists err,
    Sendmail_send_impl demoAddressString (fun x => x) demoHeaderWrite
                       (fun _ _ => None) demoRun plainSendmail
                       (Some demoMessage) []
    = (Some err, []).
Proof.
  split; [| split].
  - apply (proj1 (proj2 (Sendmail_send_rejects demoAddressString (fun x => x)
                           demoHeaderWrite demoLookPath demoRun plainSendmail []))).
    reflexivity.
  - apply (proj1 (proj2 (proj2 (Sendmail_send_rejects demoAddressString
                           (fun x => x) demoHeaderWrite demoLookPath demoRun
                           plainSendmail [])))).
    + discriminate.
    + reflexivity.
  - apply (proj2 (proj2 (proj2 (Sendmail_send_rejects demoAddressString
                           (fun x => x) demoHeaderWrite (fun _ _ => None) demoRun
                           plainSendmail [])))).
    + discriminate.
    + discriminate.
    + repeat constructor.
Defined.

Lemma Sendmail_send_runs_witness :
  exists header body,
    Sendmail_send_impl demoAddressString (fun x => x) demoHeaderWrite
                       demoLookPath demoRun plainSendmail (Some demoMessage) []
    = demoRun (mkCommand "/usr/bin/sendmail"
                         (map Address (To demoMessage))
                         (String.append header (String.append CRLF body))) [] /\
    List.length (map Address (To demoMessage)) = List.length (To demoMessage) /\
    body <> "" /\
    (HTML demoMessage <> "" -> body = HTML demoMessage) /\
    (HTML demoMessage = "" -> Text demoMessage <> "" -> body = Text demoMessage) /\
    (HTML demoMessage = "" -> Text demoMessage = "" -> body = "(empty body)").
Proof.
  apply (Sendmail_send_runs demoAddressString (fun x => x) demoHeaderWrite
                            demoLookPath demoRun plainSendmail demoMessage []
                            "/usr/bin/sendmail").
  - discriminate.
  - discriminate.
  - reflexivity.
Defined.

Lemma SMTPClient_send_rejects_witness :
  SMTPClient_send_impl demoDeliver plainSMTP (Some noSender) []
  = (Some "from address is required", []) /\
  SMTPClient_send_impl demoDeliver halfAuthSMTP (Some ccOnly) []
  = (Some "both username and password are required when using SMTP auth", []) /\
  SMTPClient_send_impl demoDeliver plainSMTP (Some ccOnly) []
  = demoDeliver true 587%Z "smtp.example.com" "" None ccOnly [].
Proof.
  destruct (SMTPClient_send_rejects demoDeliver plainSMTP [])
    as (_ & Hfrom & _ & _ & Hnoauth).
  destruct (SMTPClient_send_rejects demoDeliver halfAuthSMTP [])
    as (_ & _ & _ & Hhalf & _).
  split; [| split].
  - apply Hfrom. reflexivity.
  - apply Hhalf; [discriminate | discriminate |].
    right. split; [discriminate | reflexivity].
  - apply Hnoauth; try reflexivity; discriminate.
Defined.

Lemma OnSend_neutral_witness :
  Sendmail_Send (Sendmail_send_impl demoAddressString (fun x => x)
                   demoHeaderWrite demoLookPath demoRun)
                (fst (Sendmail_OnSend plainSendmail)) (Some demoMessage) []
  = Sent (fst (Sendmail_send_impl demoAddressString (fun x => x)
                 demoHeaderWrite demoLookPath demoRun plainSendmail
                 (Some demoMessage) []))
         (Some (mkHook []))
         (snd (Sendmail_send_impl demoAddressString (fun x => x)
                 demoHeaderWrite demoLookPath demoRun plainSendmail
                 (Some demoMessage) [])) /\
  SMTPClient_OnSend (fst (SMTPClient_OnSend plainSMTP))
  = (fst (SMTPClient_OnSend plainSMTP), mkHook []).
Proof.
  destruct (OnSend_neutral demoAddressString (fun x => x) demoHeaderWrite
              demoLookPath demoRun demoDeliver (Some demoMessage) [])
    as [Hsendmail Hsmtp].
  split.
  - apply (Hsendmail plainSendmail). reflexivity.
  - apply (Hsmtp plainSMTP). reflexivity.
Defined.

Example Sendmail_send_demo :
  Sendmail_send_impl demoAddressString (fun x => x) demoHeaderWrite
                     demoLookPath demoRun plainSendmail (Some demoMessage) []
  = (None,
     [mkCommand "/usr/bin/sendmail" ["user@example.com"; "b@example.com"]
        (String.append
           (demoHeaderWrite
              [("Subject", "Hello");
               ("From", "System <noreply@example.com>");
               ("Content-Type", "text/plain; charset=UTF-8");
               ("To", "user@example.com,b@example.com")])
           (String.append CRLF "plain text"))]).
Proof. reflexivity. Qed.

End MoreInstances.
